(** * Smart Poly Culture: the rule-based irrigation chatbot of [app.py]

    A shallow embedding of the command interpreter (intent classifier, slot
    parsers, plant extractor), of the command processor acting on the 5x5
    watering grid, and of the [/ask] request handler, followed by the
    properties of the specification that concern them.

    Conventions of the embedding.
    - A Python [str] is a [string] whose characters are the code points
      below 256, a character being its code point; [str.lower], [\w], [\s],
      [\d] and [\b] are Python's on these code points.
    - A Python [int] is a [Z].  [int(...)] of a digit string is its value,
      unless the string has more than 4300 digits: then CPython (3.11, with
      its default limit) raises [ValueError].
    - The numpy arrays [plant_matrix] and [water_status] have the fixed shape
      (ROWS, COLS) = (5, 5); they are vectors of vectors of that size.  A
      cell of [water_status] is a 64-bit integer, held as a [Z]: storing a
      Python [int] outside the 64-bit range raises [OverflowError] and
      stores nothing, and so does indexing with such an [int].
    - The module-level [water_status] is threaded explicitly: a function that
      reads or writes it takes the grid and returns the new one.
    - A raised Python exception is a value of [exn]; [print] is left out.
    - [re] and [difflib] are libraries of Python: the fragments that the
      program uses are defined here after CPython's. *)

From Stdlib Require Import ZArith QArith Ascii String List Bool Lia.
From stdpp Require Import base tactics option list vector finite strings pretty.

Local Open Scope string_scope.
Local Open Scope Z_scope.

(** ** Characters and strings *)

Module Chars.

Definition code (c : ascii) : N := N_of_ascii c.

Definition in_range (lo hi : ascii) (c : ascii) : bool :=
  ((code lo <=? code c) && (code c <=? code hi))%N.

Definition between (lo hi : N) (c : ascii) : bool :=
  ((lo <=? code c) && (code c <=? hi))%N.

(** The ranges [A-Z], [a-z] and [a-zA-Z] of a pattern. *)
Definition is_upper : ascii → bool := in_range "A" "Z".
Definition is_lower : ascii → bool := in_range "a" "z".
Definition is_letter (c : ascii) : bool := is_lower c || is_upper c.

(** [\d]: the decimal digits; below 256 these are 0 to 9. *)
Definition is_digit : ascii → bool := in_range "0" "9".

(** [str.isalnum] below 256: the letters and digits of ASCII, the ordinal
    indicators 0xaa and 0xba, the micro sign 0xb5, the superscripts 0xb2,
    0xb3 and 0xb9, the fractions 0xbc-0xbe, and the letters 0xc0-0xff
    without the signs 0xd7 and 0xf7. *)
Definition is_alnum (c : ascii) : bool :=
  is_letter c || is_digit c
  || between 170 170 c || between 178 179 c || between 181 181 c
  || between 185 186 c || between 188 190 c
  || between 192 214 c || between 216 246 c || between 248 255 c.

(** [\w]: the alphanumeric characters and the underscore. *)
Definition is_word (c : ascii) : bool := is_alnum c || Ascii.eqb c "_".

(** [\s]: the characters for which [str.isspace] holds; below 256 these are
    tab, line feed, vertical tab, form feed, carriage return, the four
    separators 0x1c-0x1f, the space, the next-line control 0x85 and the
    no-break space 0xa0. *)
Definition is_space (c : ascii) : bool :=
  between 9 13 c || between 28 32 c || between 133 133 c || between 160 160 c.

(** [.] without DOTALL: anything but a line feed. *)
Definition not_newline (c : ascii) : bool := negb (code c =? 10)%N.

(** [c.lower()]: the capital letters are A-Z and 0xc0-0xde without the
    sign 0xd7; the small letter of each lies 32 above it. *)
Definition lower_char (c : ascii) : ascii :=
  if is_upper c || between 192 214 c || between 216 222 c
  then ascii_of_N (code c + 32) else c.

(** [c.upper()] for a character of ASCII. *)
Definition upper_char (c : ascii) : ascii :=
  if is_lower c then ascii_of_N (code c - 32) else c.

End Chars.

Module Str.

Fixpoint map (f : ascii → ascii) (s : string) : string :=
  match s with
  | EmptyString => EmptyString
  | String c s' => String (f c) (map f s')
  end.

(** [s.lower()] *)
Definition lower : string → string := map Chars.lower_char.

(** [s.capitalize()]: first character upper-cased, the others lower-cased.
    The program capitalizes the keys of [plant_map] only, which begin with
    a letter of ASCII. *)
Definition capitalize (s : string) : string :=
  match s with
  | EmptyString => EmptyString
  | String c s' => String (Chars.upper_char c) (lower s')
  end.

Fixpoint take (n : nat) (s : string) : string :=
  match n, s with
  | S n', String c s' => String c (take n' s')
  | _, _ => EmptyString
  end.

(** [k in s] for strings: [k] occurs in [s] as a contiguous substring. *)
Fixpoint contains (k s : string) : bool :=
  String.prefix k s ||
  match s with
  | EmptyString => false
  | String _ s' => contains k s'
  end.

(** [sep.join(l)] *)
Fixpoint join (sep : string) (l : list string) : string :=
  match l with
  | [] => ""
  | [x] => x
  | x :: l' => x ++ sep ++ join sep l'
  end.

(** Python's [<] on strings: lexicographic on code points, a proper prefix
    being smaller. *)
Fixpoint ltb (s t : string) : bool :=
  match s, t with
  | _, EmptyString => false
  | EmptyString, String _ _ => true
  | String a s', String b t' =>
      if (Chars.code a <? Chars.code b)%N then true
      else if (Chars.code b <? Chars.code a)%N then false
      else ltb s' t'
  end.

(** The number that a string of decimal digits denotes. *)
Definition int_of_digits (s : string) : Z :=
  (fix go (acc : Z) (s : string) : Z :=
     match s with
     | EmptyString => acc
     | String c s' => go (10 * acc + Z.of_N (Chars.code c - 48)) s'
     end) 0 s.

End Str.

(** ** The fragment of [re] that the program uses

    Patterns are backtracking matchers in continuation-passing style: the
    alternatives are tried in the order in which [re] tries them (left
    alternative first, the greedy star taking one more repetition first), so
    that the first success is the match [re] reports.  A cursor is the text
    still to be read together with the character just before it, which is
    what [\b] looks at. *)

Module Re.

Inductive regex : Type :=
  | Eps
  | Lit (c : ascii)
  | Cls (p : ascii → bool)
  | Bnd
  | Cat (r1 r2 : regex)
  | Alt (r1 r2 : regex)
  | Star (r : regex)
  | Grp (r : regex).

Definition Plus (r : regex) : regex := Cat r (Star r).

(** The pattern that reads the characters of [s], one after the other. *)
Fixpoint Word (s : string) : regex :=
  match s with
  | EmptyString => Eps
  | String c s' => Cat (Lit c) (Word s')
  end.

Record cursor : Type := Cursor { before : option ascii; rest : string }.

Definition word_opt (o : option ascii) : bool :=
  match o with Some c => Chars.is_word c | None => false end.

Definition next (cur : cursor) : option ascii :=
  match rest cur with EmptyString => None | String c _ => Some c end.

(** [\b] holds where exactly one of the two neighbours is a word character,
    the outside of the text counting as a non-word character. *)
Definition at_boundary (cur : cursor) : bool :=
  xorb (word_opt (before cur)) (word_opt (next cur)).

Definition advance (cur : cursor) : option (ascii * cursor) :=
  match rest cur with
  | EmptyString => None
  | String c s => Some (c, Cursor (Some c) s)
  end.

(** The text read between two cursors of one string. *)
Definition consumed (from to : cursor) : string :=
  Str.take (String.length (rest from) - String.length (rest to)) (rest from).

Section Matcher.
Context {R : Type}.

(** [k] receives the cursor after the match and group 1, if it was set. *)
Definition cont : Type := cursor → option string → option R.

(** The greedy star: one more repetition of [step] first, provided it reads
    something, then the continuation.  Every repetition shortens the text
    left, so [n] = its length bounds their number. *)
Fixpoint star_loop (step : cursor → option string → cont → option R)
    (k : cont) (n : nat) (cur : cursor) (cap : option string) : option R :=
  match n with
  | O => k cur cap
  | S n' =>
      match step cur cap (λ cur' cap',
              if (String.length (rest cur') <? String.length (rest cur))%nat
              then star_loop step k n' cur' cap' else None) with
      | Some x => Some x
      | None => k cur cap
      end
  end.

Fixpoint rmatch (r : regex) (cur : cursor) (cap : option string) (k : cont)
  : option R :=
  match r with
  | Eps => k cur cap
  | Lit c =>
      match advance cur with
      | Some (c', cur') => if Ascii.eqb c c' then k cur' cap else None
      | None => None
      end
  | Cls p =>
      match advance cur with
      | Some (c', cur') => if p c' then k cur' cap else None
      | None => None
      end
  | Bnd => if at_boundary cur then k cur cap else None
  | Cat r1 r2 => rmatch r1 cur cap (λ cur' cap', rmatch r2 cur' cap' k)
  | Alt r1 r2 =>
      match rmatch r1 cur cap k with
      | Some x => Some x
      | None => rmatch r2 cur cap k
      end
  | Star r' => star_loop (rmatch r') k (String.length (rest cur)) cur cap
  | Grp r' => rmatch r' cur cap (λ cur' _, k cur' (Some (consumed cur cur')))
  end.

End Matcher.

(** A match object: [m.group(0)], [m.group(1)] and where the match ends. *)
Record match_obj : Type :=
  Match { group0 : string; group1 : option string; m_end : cursor }.

Definition match_at (r : regex) (cur : cursor) : option match_obj :=
  rmatch r cur None (λ cur' cap, Some (Match (consumed cur cur') cap cur')).

(** The leftmost match at or after the cursor. *)
Fixpoint search_from (r : regex) (prev : option ascii) (s : string)
  : option match_obj :=
  match match_at r (Cursor prev s) with
  | Some m => Some m
  | None =>
      match s with
      | EmptyString => None
      | String c s' => search_from r (Some c) s'
      end
  end.

(** [re.search(r, s)] *)
Definition search (r : regex) (s : string) : option match_obj :=
  search_from r None s.

(** [re.findall(r, s)] for a pattern without groups that never matches the
    empty string: the successive leftmost matches, each search resuming where
    the previous match ended.  Every match shortens the text left, so
    [length s] rounds are enough. *)
Fixpoint findall_from (fuel : nat) (r : regex) (cur : cursor) : list string :=
  match fuel with
  | O => []
  | S fuel' =>
      match search_from r (before cur) (rest cur) with
      | Some m =>
          if (String.length (rest (m_end m)) <? String.length (rest cur))%nat
          then group0 m :: findall_from fuel' r (m_end m)
          else []
      | None => []
      end
  end.

Definition findall (r : regex) (s : string) : list string :=
  findall_from (String.length s) r (Cursor None s).

(** The relation that the matcher decides: [matches r cur cur'] when [r]
    can read the text from the cursor [cur] to the cursor [cur']. *)
Inductive matches : regex → cursor → cursor → Prop :=
  | matches_eps cur : matches Eps cur cur
  | matches_lit c p s :
      matches (Lit c) (Cursor p (String c s)) (Cursor (Some c) s)
  | matches_cls f c p s :
      f c = true → matches (Cls f) (Cursor p (String c s)) (Cursor (Some c) s)
  | matches_bnd cur : at_boundary cur = true → matches Bnd cur cur
  | matches_cat r1 r2 c1 c2 c3 :
      matches r1 c1 c2 → matches r2 c2 c3 → matches (Cat r1 r2) c1 c3
  | matches_alt_l r1 r2 c1 c2 : matches r1 c1 c2 → matches (Alt r1 r2) c1 c2
  | matches_alt_r r1 r2 c1 c2 : matches r2 c1 c2 → matches (Alt r1 r2) c1 c2
  | matches_star_nil r cur : matches (Star r) cur cur
  | matches_star_cons r c1 c2 c3 :
      matches r c1 c2 → matches (Star r) c2 c3 → matches (Star r) c1 c3
  | matches_grp r c1 c2 : matches r c1 c2 → matches (Grp r) c1 c2.

End Re.

(** ** The fragment of [difflib] that the program uses

    [app.py] calls [difflib.get_close_matches(token, synonyms, n=1,
    cutoff=0.75)].  The definitions below follow CPython's [difflib]:
    [SequenceMatcher] with its default [isjunk=None] and [autojunk=True]
    (so the junk set is empty and, in a second sequence of 200 elements or
    more, an element is popular when it occurs more than [n // 100 + 1]
    times), [find_longest_match], the sum of the block sizes of
    [get_matching_blocks], the three ratios, and [heapq.nlargest] for
    [n = 1], which is [max] on the (score, word) pairs.

    A score is [2.0 * matches / length] in floating point.  Numerator and
    denominator are small integers and the cutoff 0.75 is a binary fraction,
    so comparing the floats and comparing the exact quotients agree; scores
    are exact rationals here. *)

Module Difflib.

Definition chars (s : string) : list ascii := list_ascii_of_string s.

Definition same_elt (x y : option ascii) : bool :=
  match x, y with
  | Some c, Some d => Ascii.eqb c d
  | _, _ => false
  end.

Definition count_elt (c : ascii) (l : list ascii) : nat :=
  length (filter (λ d, Ascii.eqb c d = true) l).

(** [_calculate_ratio(matches, length)] *)
Definition calculate_ratio (matches len : nat) : Q :=
  if (len =? 0)%nat then Qmake 1 1
  else Qmake (2 * Z.of_nat matches) (Pos.of_nat len).

Section SequenceMatcher.

(** [a] is the first sequence ([set_seq1]), [b] the second ([set_seq2]). *)
Variables a b : list ascii.

(** [__chain_b]: [bpopular] and [b2j]. *)
Definition bpopular (c : ascii) : bool :=
  let n := length b in
  ((200 <=? n) && (n / 100 + 1 <? count_elt c b))%nat.

Fixpoint indices_of (c : ascii) (j : nat) (l : list ascii) : list nat :=
  match l with
  | [] => []
  | d :: l' =>
      if Ascii.eqb c d then j :: indices_of c (S j) l'
      else indices_of c (S j) l'
  end.

Definition b2j (c : ascii) : list nat :=
  if bpopular c then [] else indices_of c 0%nat b.

(** [j2len.get(j - 1, 0)] on a dictionary kept as an association list. *)
Definition j2len_get (j2len : list (nat * nat)) (j : nat) : nat :=
  match j with
  | O => 0%nat
  | S j' =>
      match List.find (λ e, (e.1 =? j')%nat) j2len with
      | Some e => e.2
      | None => 0%nat
      end
  end.

(** [(besti, bestj, bestsize)] *)
Definition best : Type := nat * nat * nat.

Section FindLongestMatch.

Variables alo ahi blo bhi : nat.

(** The loop over [b2j.get(a[i], nothing)], with its [continue] and
    [break]. *)
Fixpoint scan_js (i : nat) (js : list nat) (j2len newj2len : list (nat * nat))
    (bst : best) : list (nat * nat) * best :=
  match js with
  | [] => (newj2len, bst)
  | j :: js' =>
      if (j <? blo)%nat then scan_js i js' j2len newj2len bst
      else if (bhi <=? j)%nat then (newj2len, bst)
      else
        let k := (j2len_get j2len j + 1)%nat in
        let bst' :=
          if (bst.2 <? k)%nat then ((i + 1 - k)%nat, (j + 1 - k)%nat, k)
          else bst in
        scan_js i js' j2len ((j, k) :: newj2len) bst'
  end.

(** The loop [for i in range(alo, ahi)]. *)
Fixpoint scan_is (rng : list nat) (j2len : list (nat * nat)) (bst : best)
  : best :=
  match rng with
  | [] => bst
  | i :: rng' =>
      let js := match a !! i with Some c => b2j c | None => [] end in
      let '(newj2len, bst') := scan_js i js j2len [] bst in
      scan_is rng' newj2len bst'
  end.

(** The two loops that extend the block over elements that are not junk
    (the junk set is empty, so the two loops over junk never run). *)
Fixpoint extend_left (fuel : nat) (bst : best) : best :=
  match fuel with
  | O => bst
  | S fuel' =>
      let '(besti, bestj, bestsize) := bst in
      if (alo <? besti)%nat && (blo <? bestj)%nat
         && same_elt (a !! (besti - 1)%nat) (b !! (bestj - 1)%nat)
      then extend_left fuel' ((besti - 1)%nat, (bestj - 1)%nat, S bestsize)
      else bst
  end.

Fixpoint extend_right (fuel : nat) (bst : best) : best :=
  match fuel with
  | O => bst
  | S fuel' =>
      let '(besti, bestj, bestsize) := bst in
      if (besti + bestsize <? ahi)%nat && (bestj + bestsize <? bhi)%nat
         && same_elt (a !! (besti + bestsize)%nat) (b !! (bestj + bestsize)%nat)
      then extend_right fuel' (besti, bestj, S bestsize)
      else bst
  end.

(** Each round of an extension loop moves [besti] down, or [bestsize] up,
    within [a]: [length a] rounds are enough. *)
Definition find_longest_match : best :=
  let bst := scan_is (seq alo (ahi - alo)) [] (alo, blo, 0%nat) in
  let bst := extend_left (length a) bst in
  extend_right (length a) bst.

End FindLongestMatch.

(** The sum of the sizes of the blocks of [get_matching_blocks]: the longest
    block of the range, then the blocks to its left and to its right.  Each
    nested range is strictly shorter in [a], so [length a] levels are
    enough. *)
Fixpoint matches_in (fuel : nat) (alo ahi blo bhi : nat) : nat :=
  match fuel with
  | O => 0%nat
  | S fuel' =>
      let '(i, j, k) := find_longest_match alo ahi blo bhi in
      if (k =? 0)%nat then 0%nat
      else
        (k + (if (alo <? i) && (blo <? j)
              then matches_in fuel' alo i blo j else 0)
           + (if (i + k <? ahi) && (j + k <? bhi)
              then matches_in fuel' (i + k) ahi (j + k) bhi else 0))%nat
  end.

Definition ratio : Q :=
  calculate_ratio (matches_in (length a) 0 (length a) 0 (length b))
                  (length a + length b).

(** [quick_ratio]: [avail] is kept as an association list. *)
Definition avail_get (avail : list (ascii * Z)) (c : ascii) : Z :=
  match List.find (λ e, Ascii.eqb e.1 c) avail with
  | Some e => e.2
  | None => Z.of_nat (count_elt c b)
  end.

Fixpoint quick_matches (l : list ascii) (avail : list (ascii * Z)) : nat :=
  match l with
  | [] => 0%nat
  | elt :: l' =>
      let numb := avail_get avail elt in
      let matches := quick_matches l' ((elt, numb - 1) :: avail) in
      if 0 <? numb then S matches else matches
  end.

Definition quick_ratio : Q :=
  calculate_ratio (quick_matches a []) (length a + length b).

Definition real_quick_ratio : Q :=
  calculate_ratio (Nat.min (length a) (length b)) (length a + length b).

End SequenceMatcher.

(** Python's [<] on the pairs (score, word). *)
Definition pair_lt (p q : Q * string) : bool :=
  match Qcompare p.1 q.1 with
  | Lt => true
  | Gt => false
  | Eq => Str.ltb p.2 q.2
  end.

(** [max(result)]: the first of the greatest pairs. *)
Fixpoint max_pair (cur : Q * string) (l : list (Q * string)) : Q * string :=
  match l with
  | [] => cur
  | p :: l' => max_pair (if pair_lt cur p then p else cur) l'
  end.

Definition scored (word : string) (cutoff : Q) (possibilities : list string)
  : list (Q * string) :=
  omap (λ x,
      let a := chars x in
      let b := chars word in
      if Qle_bool cutoff (real_quick_ratio a b)
         && Qle_bool cutoff (quick_ratio a b)
         && Qle_bool cutoff (ratio a b)
      then Some (ratio a b, x) else None) possibilities.

(** [get_close_matches(word, possibilities, n=1, cutoff)] *)
Definition get_close_matches (word : string) (possibilities : list string)
    (cutoff : Q) : list string :=
  match scored word cutoff possibilities with
  | [] => []
  | p :: l => [(max_pair p l).2]
  end.

End Difflib.

(** ** Exceptions and the two monads of the embedding *)

Inductive exn : Type :=
  | AttributeError
  | BadRequest
  | IndexError
  | KeyError
  | OverflowError
  | ValueError.

Inductive result (A : Type) : Type :=
  | Ok (x : A)
  | Raise (e : exn).
Arguments Ok {A} x.
Arguments Raise {A} e.

Global Instance result_ret : MRet result := λ A x, Ok x.
Global Instance result_bind : MBind result := λ A B f m,
  match m with
  | Ok x => f x
  | Raise e => Raise e
  end.

(** [sys.get_int_max_str_digits()], as CPython 3.11 sets it by default. *)
Definition int_max_str_digits : Z := 4300.

(** [int(s)] for a string of decimal digits: a string of more digits than
    the limit, leading zeros included, is refused with [ValueError]. *)
Definition int (s : string) : result Z :=
  if int_max_str_digits <? Z.of_nat (String.length s)
  then Raise ValueError
  else Ok (Str.int_of_digits s).

(** Whether a Python [int] fits a signed 64-bit integer, which is what numpy
    converts an index or a value stored in [water_status] to. *)
Definition int64 (z : Z) : bool := (- 2 ^ 63 <=? z) && (z <? 2 ^ 63).

(** ** Module-level data of [app.py] *)

Definition ROWS : nat := 5.
Definition COLS : nat := 5.

Abbreviation matrix A := (vec (vec A COLS) ROWS).

Definition plant_matrix : matrix string :=
  [# [# "Be"; "Ba"; "Ca"; "Bt"; "To"];
     [# "To"; "Bt"; "Ba"; "Be"; "Ca"];
     [# "To"; "Bt"; "Be"; "Ba"; "Ca"];
     [# "Bt"; "Ba"; "To"; "Be"; "Ca"];
     [# "Ba"; "Be"; "Ca"; "To"; "Bt"] ].

(** The watering status grid: 0 = OFF, 1 = DRIP, 2 = SHOWER. *)
Abbreviation grid := (matrix Z).

(** [np.zeros((ROWS, COLS), dtype=int)] *)
Definition water_status_init : grid := vreplicate ROWS (vreplicate COLS 0).

(** A [dict] with string keys, in insertion order. *)
Definition dict (V : Type) : Type := list (string * V).

Definition dict_get {V : Type} (d : dict V) (key : string) : option V :=
  snd <$> List.find (λ kv, String.eqb kv.1 key) d.

Definition dict_keys {V : Type} (d : dict V) : list string := fst <$> d.

Definition plant_map : dict string :=
  [ ("basil", "Ba"); ("beans", "Be"); ("beetroot", "Bt");
    ("carrot", "Ca"); ("tomato", "To"); ("all", "all") ].

Definition PLANT_SYNONYMS : dict string :=
  [ ("basil", "Ba"); ("herb", "Ba"); ("basils", "Ba");
    ("beans", "Be"); ("bean", "Be"); ("green beans", "Be");
    ("beetroot", "Bt"); ("beet", "Bt"); ("beets", "Bt");
    ("carrot", "Ca"); ("carrots", "Ca");
    ("tomato", "To"); ("tomatoes", "To"); ("tomoto", "To") ].

(** ** The intent classifier *)

Import Re.

Inductive Intent : Type := TurnOnWater | TurnOffWater | GetStatus | Unknown.

Global Instance Intent_eq_dec : EqDecision Intent.
Proof. solve_decision. Defined.

Infix "·" := Cat (at level 41, right associativity).

Definition ws : regex := Cls Chars.is_space.
Definition digit : regex := Cls Chars.is_digit.
Definition any_char : regex := Cls Chars.not_newline.

(** [\bturn\s+off\b], [\bturn\s+of\b], [\bturn\s+on\b], [\bwater\b.*\bon\b] *)
Definition re_turn_off : regex := Bnd · Word "turn" · Plus ws · Word "off" · Bnd.
Definition re_turn_of : regex := Bnd · Word "turn" · Plus ws · Word "of" · Bnd.
Definition re_turn_on : regex := Bnd · Word "turn" · Plus ws · Word "on" · Bnd.
Definition re_water_on : regex :=
  Bnd · Word "water" · Bnd · Star any_char · Bnd · Word "on" · Bnd.

(** [r"\b" + re.escape(keyword) + r"\b"]: the keyword, read literally. *)
Definition re_keyword (keyword : string) : regex := Bnd · Word keyword · Bnd.

(** The truth value of what [re.search] returns. *)
Definition found (m : option match_obj) : bool :=
  match m with Some _ => true | None => false end.

Definition on_keywords : list string :=
  ["start"; "activate"; "open"; "begin"; "enable"; "on"].
Definition off_keywords : list string :=
  ["stop"; "deactivate"; "close"; "end"; "disable"; "off"].
Definition status_keywords : list string :=
  ["status"; "check"; "how are"; "what is"; "report"].

(** [sum(1 for keyword in keywords if re.search(..., text_lower))] *)
Definition keyword_count (keywords : list string) (text_lower : string) : Z :=
  Z.of_nat (length (filter (λ keyword,
    found (search (re_keyword keyword) text_lower) = true) keywords)).

Definition classify_intent (text : string) : Intent :=
  let text_lower := Str.lower text in
  if found (search re_turn_off text_lower) || found (search re_turn_of text_lower)
  then TurnOffWater
  else if found (search re_turn_on text_lower) || found (search re_water_on text_lower)
  then TurnOnWater
  else
    let on_count := keyword_count on_keywords text_lower in
    let off_count := keyword_count off_keywords text_lower in
    let status_count := keyword_count status_keywords text_lower in
    if (off_count <? on_count) && (status_count <? on_count) then TurnOnWater
    else if (on_count <? off_count) && (status_count <? off_count) then TurnOffWater
    else if (on_count <? status_count) && (off_count <? status_count) then GetStatus
    else Unknown.

(** ** The slot parsers *)

(** [bed\s+(\d+)] and [bed\s+(one|two|three|four|five)] *)
Definition re_bed_digits : regex := Word "bed" · Plus ws · Grp (Plus digit).
Definition re_bed_word : regex :=
  Word "bed" · Plus ws ·
  Grp (Alt (Word "one") (Alt (Word "two") (Alt (Word "three")
        (Alt (Word "four") (Word "five"))))).

Definition words_to_num : dict Z :=
  [ ("one", 1); ("two", 2); ("three", 3); ("four", 4); ("five", 5) ].

(** The patterns of [parse_location], to record which of them a call
    searched for. *)
Inductive location_pattern : Type := DigitPattern | WordPattern.

(** [m.group(1)] of a match of a pattern whose group 1 takes part in every
    match. *)
Definition group_1 (m : match_obj) : string := default "" (group1 m).

(** [0 <= idx < ROWS] *)
Definition in_rows (idx : Z) : bool := (0 <=? idx) && (idx <? Z.of_nat ROWS).

(** [parse_location], returning next to its outcome ([None] is Python's
    [None]) the patterns it has called [re.search] with, in order.  The
    first part ends in [Ok (Some idx)] where the code returns [idx], in
    [Raise] where [int] raises, and in [Ok None] where control goes on to
    the word pattern. *)
Definition parse_location_run (text : string)
  : list location_pattern * result (option Z) :=
  let text_lower := Str.lower text in
  let m := search re_bed_digits text_lower in
  let from_digits : result (option Z) :=
    match m with
    | Some mo =>
        bed ← int (group_1 mo);
        let idx := bed - 1 in
        Ok (if in_rows idx then Some idx else None)
    | None => Ok None
    end in
  match from_digits with
  | Raise e => ([DigitPattern], Raise e)
  | Ok (Some idx) => ([DigitPattern], Ok (Some idx))
  | Ok None =>
      let m2 := search re_bed_word text_lower in
      ([DigitPattern; WordPattern],
       Ok match m2 with
          | Some mo =>
              let idx := default 1 (dict_get words_to_num (group_1 mo)) - 1 in
              if in_rows idx then Some idx else None
          | None => None
          end)
  end.

Definition parse_location (text : string) : result (option Z) :=
  (parse_location_run text).2.

Definition shower_keywords : list string :=
  ["shower"; "heavy"; "high"; "fast"; "spray"; "bulk"; "lots"].
Definition drip_keywords : list string := ["drip"; "slow"; "light"; "gentle"].

(** [any(k in text_lower for k in keywords)] *)
Definition any_in (keywords : list string) (text_lower : string) : bool :=
  existsb (λ k, Str.contains k text_lower) keywords.

Definition parse_intensity (text : string) : Z :=
  let text_lower := Str.lower text in
  if any_in shower_keywords text_lower then 2
  else if any_in drip_keywords text_lower then 1
  else 1.

(** ** The plant extractor *)

(** [[a-zA-Z]+] *)
Definition re_letters : regex := Plus (Cls Chars.is_letter).

Definition mem (x : string) (l : list string) : bool :=
  existsb (String.eqb x) l.

(** The loop over [plant_map.items()]: the first entry with the given code
    whose name is not "all" is appended unless already there; the loop
    breaks at that entry. *)
Definition add_plant (plant_code : string) (plants_found : list string)
  : list string :=
  match List.find (λ kv, String.eqb kv.2 plant_code
                         && negb (String.eqb (Str.lower kv.1) "all")) plant_map with
  | Some (original_name, _) =>
      if mem original_name plants_found then plants_found
      else plants_found ++ [original_name]
  | None => plants_found
  end.

(** The loop "Exact matches first". *)
Fixpoint exact_pass (tokens : list string) (plants_found : list string)
  : list string :=
  match tokens with
  | [] => plants_found
  | token :: tokens' =>
      match dict_get PLANT_SYNONYMS token with
      | Some plant_code => exact_pass tokens' (add_plant plant_code plants_found)
      | None => exact_pass tokens' plants_found
      end
  end.

Definition cutoff : Q := Qmake 3 4.

(** [PLANT_SYNONYMS[key]] *)
Definition synonym_code (key : string) : result string :=
  match dict_get PLANT_SYNONYMS key with
  | Some plant_code => Ok plant_code
  | None => Raise KeyError
  end.

(** The loop "Fuzzy matching for misspellings". *)
Fixpoint fuzzy_pass (synonyms_list : list string) (tokens : list string)
    (plants_found : list string) : result (list string) :=
  match tokens with
  | [] => Ok plants_found
  | token :: tokens' =>
      match Difflib.get_close_matches token synonyms_list cutoff with
      | close0 :: _ =>
          plant_code ← synonym_code close0;
          fuzzy_pass synonyms_list tokens' (add_plant plant_code plants_found)
      | [] => fuzzy_pass synonyms_list tokens' plants_found
      end
  end.

Definition is_empty {A : Type} (l : list A) : bool :=
  match l with [] => true | _ => false end.

(** [not plants_found and tokens]: whether the fuzzy loop is entered. *)
Definition fuzzy_runs (plants_found tokens : list string) : bool :=
  is_empty plants_found && negb (is_empty tokens).

Definition all_keywords : list string :=
  ["all"; "everything"; "every plant"; "whole garden"; "entire garden"].

Definition tokenize (text_lower : string) : list string :=
  findall re_letters text_lower.

(** The two loops of [extract_plants], to record which of them a call
    has run. *)
Inductive pass : Type := ExactPass | FuzzyPass.

(** [extract_plants], returning next to its outcome the loops it has run,
    in order. *)
Definition extract_plants_run (text : string)
  : list pass * result (list string) :=
  let text_lower := Str.lower text in
  let tokens := tokenize text_lower in
  let plants_found := exact_pass tokens [] in
  let '(passes, after_loops) :=
    if fuzzy_runs plants_found tokens
    then ([ExactPass; FuzzyPass],
          fuzzy_pass (dict_keys PLANT_SYNONYMS) tokens plants_found)
    else ([ExactPass], Ok plants_found) in
  (passes,
   plants_found ← after_loops;
   let plants_found :=
     if any_in all_keywords text_lower && is_empty plants_found
     then ["all"] else plants_found in
   let plants_found :=
     if is_empty plants_found then ["all"] else plants_found in
   Ok plants_found).

Definition extract_plants (text : string) : result (list string) :=
  (extract_plants_run text).2.

(** ** The command processor *)

(** Code that reads or writes the module-level [water_status] and may raise:
    it takes the grid and returns its outcome with the grid it leaves. *)
Definition M (A : Type) : Type := grid → result A * grid.

Global Instance M_ret : MRet M := λ A x g, (Ok x, g).
Global Instance M_bind : MBind M := λ A B f m g,
  match m g with
  | (Ok x, g') => f x g'
  | (Raise e, g') => (Raise e, g')
  end.

Definition raise {A : Type} (e : exn) : M A := λ g, (Raise e, g).
Definition modify (f : grid → grid) : M unit := λ g, (Ok (), f g).
Definition read {A : Type} (f : grid → A) : M A := λ g, (Ok (f g), g).
Definition lift {A : Type} (r : result A) : M A := λ g, (r, g).

Fixpoint to_fin (n i : nat) : option (fin n) :=
  match n with
  | O => None
  | S n' =>
      match i with
      | O => Some 0%fin
      | S i' => FS <$> to_fin n' i'
      end
  end.

(** The row that numpy addresses with the integer [bed_index]: an index from
    [-ROWS] to [ROWS - 1], the negative ones counting from the end; any
    other index addresses no row. *)
Definition row_of (bed_index : Z) : option (fin ROWS) :=
  if (0 <=? bed_index) && (bed_index <? Z.of_nat ROWS)
  then to_fin ROWS (Z.to_nat bed_index)
  else if (- Z.of_nat ROWS <=? bed_index) && (bed_index <? 0)
  then to_fin ROWS (Z.to_nat (bed_index + Z.of_nat ROWS))
  else None.

(** What indexing with an integer that addresses no row raises:
    [IndexError] when the integer fits 64 bits, and [OverflowError] when
    numpy cannot convert it. *)
Definition index_error (bed_index : Z) : exn :=
  if int64 bed_index then IndexError else OverflowError.

Definition row (bed_index : Z) : M (fin ROWS) :=
  match row_of bed_index with
  | Some r => mret r
  | None => raise (index_error bed_index)
  end.

(** An assignment of the Python [int] [v] to cells of [water_status]: the
    cells are written as [write] says when [v] fits 64 bits; otherwise the
    conversion of [v] raises [OverflowError] and nothing is written. *)
Definition store (v : Z) (write : grid → grid) : M unit :=
  if int64 v then modify write else raise OverflowError.

(** The assignments below are those of a value [v] that fits 64 bits;
    [store] puts before each of them the conversion of [v], which numpy
    does first.

    [water_status.fill(v)] *)
Definition fill (v : Z) : grid → grid :=
  λ _, vreplicate ROWS (vreplicate COLS v).

(** [water_status[r, :] = v] *)
Definition set_row (r : fin ROWS) (v : Z) : grid → grid :=
  vinsert r (vreplicate COLS v).

(** [cells[mask] = v] where [mask = (codes == plant_code)] *)
Definition set_where (plant_code : string) (v : Z)
    (codes : vec string COLS) (cells : vec Z COLS) : vec Z COLS :=
  vzip_with (λ code old, if String.eqb code plant_code then v else old)
            codes cells.

(** [water_status[plant_matrix == plant_code] = v] *)
Definition set_plant (plant_code : string) (v : Z) : grid → grid :=
  vzip_with (set_where plant_code v) plant_matrix.

(** [mask = (plant_matrix[r, :] == plant_code); water_status[r, :][mask] = v] *)
Definition set_plant_in_row (r : fin ROWS) (plant_code : string) (v : Z)
  : grid → grid :=
  λ g, vinsert r (set_where plant_code v (plant_matrix !!! r) (g !!! r)) g.

(** The body shared by the on and off branches: [v] is the level written.
    With a bed index, numpy looks up the row, and raises where the index
    addresses none, before it converts [v]. *)
Definition water_all (v : Z) (bed_index : option Z) : M unit :=
  match bed_index with
  | None => store v (fill v)
  | Some b => r ← row b; store v (set_row r v)
  end.

Fixpoint water_plants (plant_codes : list string) (v : Z)
    (bed_index : option Z) : M unit :=
  match plant_codes with
  | [] => mret ()
  | plant_code :: plant_codes' =>
      match bed_index with
      | None => store v (set_plant plant_code v)
      | Some b => r ← row b; store v (set_plant_in_row r plant_code v)
      end;;
      water_plants plant_codes' v bed_index
  end.

(** [np.sum(water_status == v)] *)
Definition cells (g : grid) : list Z := mjoin (vec_to_list <$> vec_to_list g).

Definition count_eq (v : Z) (g : grid) : nat :=
  length (filter (λ x, x = v) (cells g)).

(** [water_status.size] *)
Definition size : nat := ROWS * COLS.

(** [pretty = {k: k.capitalize() for k in plant_map.keys()}] and
    [pretty.get(name.lower(), name)] *)
Definition pretty_names : dict string :=
  (λ k, (k, Str.capitalize k)) <$> dict_keys plant_map.

Definition pretty_get (name : string) : string :=
  default name (dict_get pretty_names (Str.lower name)).

(** [[code for code in [plant_map.get(name, None) ...] if code]]: a code is
    kept when it is neither [None] nor the empty string. *)
Definition resolve_codes (plant_names : list string) : list string :=
  omap (λ name,
      match dict_get plant_map name with
      | Some code => if String.eqb code "" then None else Some code
      | None => None
      end) plant_names.

Definition plant_names_str (plant_names : list string) : string :=
  Str.join ", "
    (pretty_get <$> filter (λ name, name ≠ "all") plant_names).

Definition level_name (intensity : Z) : string :=
  if intensity =? 2 then "SHOWER" else "DRIP".

Definition not_recognized : string :=
  "Sorry, I don't recognize those plants. Available plants: Basil, Beans, Beetroot, Carrot, Tomato.".

Definition not_understood : string :=
  "Sorry, I didn't understand that command. Try 'turn on basil' or 'turn off all plants'.".

Definition process_command (intent : Intent) (plant_names : list string)
    (intensity : Z) (bed_index : option Z) : M string :=
  let plant_codes := resolve_codes plant_names in
  if is_empty plant_codes then mret not_recognized
  else
    match intent with
    | TurnOnWater =>
        if mem "all" plant_codes then
          water_all intensity bed_index;;
          mret ("Turning on water for all plants (" ++ level_name intensity ++ ").")
        else
          water_plants plant_codes intensity bed_index;;
          mret ("Turning on water for " ++ plant_names_str plant_names
                ++ " (" ++ level_name intensity ++ ").")
    | TurnOffWater =>
        if mem "all" plant_codes then
          water_all 0 bed_index;;
          mret "Turning off water for all plants."
        else
          water_plants plant_codes 0 bed_index;;
          mret ("Turning off water for " ++ plant_names_str plant_names ++ ".")
    | GetStatus =>
        shower_count ← read (count_eq 2);
        drip_count ← read (count_eq 1);
        let total_count := size in
        mret ("Current watering status: " ++ pretty drip_count ++ " drip, "
              ++ pretty shower_count ++ " shower out of " ++ pretty total_count
              ++ " plants.")
    | Unknown => mret not_understood
    end.

Local Set Warnings "-register-all".

(** ** The routes *)

(** A JSON value as [request.get_json()] returns it.  An object keeps its
    members in document order, and [json] keeps the last of equal keys.  A
    number is an integer here: [ask] only looks at whether it is zero. *)
Inductive json : Type :=
  | JNull
  | JBool (b : bool)
  | JNum (n : Z)
  | JStr (s : string)
  | JArr (items : list json)
  | JObj (members : list (string * json)).

(** Python's truth value of a decoded JSON value. *)
Definition truthy (j : json) : bool :=
  match j with
  | JNull => false
  | JBool b => b
  | JNum n => negb (n =? 0)
  | JStr s => negb (String.eqb s "")
  | JArr items => negb (is_empty items)
  | JObj members => negb (is_empty members)
  end.

(** [data.get("message", "")]: only a dict has [get]. *)
Definition get_message (data : json) : result json :=
  match data with
  | JObj members => Ok (default (JStr "") (dict_get (reverse members) "message"))
  | _ => Raise AttributeError
  end.

(** The receiver of [text.lower()]: only a [str] has [lower]. *)
Definition as_text (j : json) : result string :=
  match j with
  | JStr s => Ok s
  | _ => Raise AttributeError
  end.

Record response : Type := Response { status : Z; reply : string }.

(** [jsonify({"reply": text})]: status 200. *)
Definition jsonify_reply (text : string) : response := Response 200 text.

(** The body of the [try] of [ask].  The request is the JSON body, or [None]
    when [request.get_json()] cannot decode one and raises. *)
Definition ask_try (request : option json) : M string :=
  data ← lift (match request with Some j => Ok j | None => Raise BadRequest end);
  user_input ← lift (get_message data);
  if negb (truthy user_input) then mret "Please send a message."
  else
    text ← lift (as_text user_input);
    let intent := classify_intent text in
    plant_names ← lift (extract_plants text);
    bed_index ← lift (parse_location text);
    let intensity :=
      if decide (intent = TurnOnWater) then parse_intensity text else 0 in
    process_command intent plant_names intensity bed_index.

(** [POST /ask] *)
Definition ask (request : option json) (water_status : grid) : response * grid :=
  match ask_try request water_status with
  | (Ok response_text, g) => (jsonify_reply response_text, g)
  | (Raise e, g) => (jsonify_reply "Sorry, I encountered an error.", g)
  end.

(** [GET /get_status]: [jsonify(water_status.tolist())] *)
Definition get_status (water_status : grid) : list (list Z) :=
  vec_to_list (vmap vec_to_list water_status).

Definition post (message : string) : option json :=
  Some (JObj [("message", JStr message)]).

(** ** Notions used to state the properties *)

Definition cell {A : Type} (m : matrix A) (i : fin ROWS) (j : fin COLS) : A :=
  (m !!! i) !!! j.

(** The grid that holds [v] in the cells that [P] selects and the cells of
    [g] elsewhere. *)
Definition paint (P : fin ROWS → fin COLS → bool) (v : Z) (g : grid) : grid :=
  fun_to_vec (λ i, fun_to_vec (λ j, if P i j then v else cell g i j)).

(** The cells that a watering command for the resolved codes selects. *)
Definition selects (plant_codes : list string) (r : option (fin ROWS))
    (i : fin ROWS) (j : fin COLS) : bool :=
  (match r with
   | Some r' => bool_decide (i = r')
   | None => true
   end)
  && (mem "all" plant_codes || mem (cell plant_matrix i j) plant_codes).

(** The rows that a command addresses: [None] when the bed index is out of
    range for numpy, otherwise the whole grid or one row. *)
Definition target (bed_index : option Z) : option (option (fin ROWS)) :=
  match bed_index with
  | None => Some None
  | Some b => Some <$> row_of b
  end.

(** The grid that a watering command writing level [v] leaves. *)
Definition watered (plant_names : list string) (v : Z) (bed_index : option Z)
    (g : grid) : grid :=
  let plant_codes := resolve_codes plant_names in
  if is_empty plant_codes then g
  else
    match target bed_index with
    | Some r => if int64 v then paint (selects plant_codes r) v g else g
    | None => g
    end.

Definition on_reply (plant_names : list string) (intensity : Z) : string :=
  if mem "all" (resolve_codes plant_names)
  then "Turning on water for all plants (" ++ level_name intensity ++ ")."
  else "Turning on water for " ++ plant_names_str plant_names
       ++ " (" ++ level_name intensity ++ ").".

Definition off_reply (plant_names : list string) : string :=
  if mem "all" (resolve_codes plant_names)
  then "Turning off water for all plants."
  else "Turning off water for " ++ plant_names_str plant_names ++ ".".

Definition status_reply (g : grid) : string :=
  "Current watering status: " ++ pretty (count_eq 1 g) ++ " drip, "
  ++ pretty (count_eq 2 g) ++ " shower out of 25 plants.".

(** What a command that resolves at least one plant code and writes level
    [v] returns. *)
Definition outcome {A : Type} (reply_text : A) (v : Z) (bed_index : option Z)
  : result A :=
  let written := if int64 v then Ok reply_text else Raise OverflowError in
  match bed_index with
  | Some b =>
      match row_of b with
      | Some _ => written
      | None => Raise (index_error b)
      end
  | None => written
  end.

(** The names of the catalog other than "all". *)
Definition plant_names_proper : list string :=
  ["basil"; "beans"; "beetroot"; "carrot"; "tomato"].

(** The plants found before the two "all" fallbacks. *)
Definition plants_before_fallback (text : string) : result (list string) :=
  let tokens := tokenize (Str.lower text) in
  let plants_found := exact_pass tokens [] in
  if fuzzy_runs plants_found tokens
  then fuzzy_pass (dict_keys PLANT_SYNONYMS) tokens plants_found
  else Ok plants_found.

(** The two ways in which the extractor can come to a plant name. *)
Definition resolved_by_exact (text name : string) : Prop :=
  name ∈ exact_pass (tokenize (Str.lower text)) [].

Definition resolved_by_fuzzy (text name : string) : Prop :=
  let tokens := tokenize (Str.lower text) in
  fuzzy_runs (exact_pass tokens []) tokens = true
  ∧ ∃ names, fuzzy_pass (dict_keys PLANT_SYNONYMS) tokens [] = Ok names
             ∧ name ∈ names.

(** The bed number that the digit pattern of [parse_location] reads: the
    text of group 1 of its leftmost match. *)
Definition bed_digits (text_lower : string) : option string :=
  group_1 <$> search re_bed_digits text_lower.

(** A text whose bed number has 4301 digits. *)
Definition long_bed_number : string :=
  string_of_list_ascii (replicate 4301 "7"%char).

Definition long_bed_text : string := "status of bed " ++ long_bed_number.

(** The index that the word pattern of [parse_location] yields. *)
Definition location_from_word (text_lower : string) : option Z :=
  match search re_bed_word text_lower with
  | Some mo =>
      let idx := default 1 (dict_get words_to_num (group_1 mo)) - 1 in
      if in_rows idx then Some idx else None
  | None => None
  end.

(** The scoring of the classifier as the specification words it: each
    keyword set is scored by counting the whole-word occurrences of its terms
    in the text. *)
Definition occurrence_count (keywords : list string) (text_lower : string) : Z :=
  Z.of_nat (length (mjoin ((λ keyword, findall (re_keyword keyword) text_lower)
                           <$> keywords))).

(** The winner of a scoring: the intent whose count strictly exceeds both
    others, [Unknown] otherwise. *)
Definition winner (on_count off_count status_count : Z) : Intent :=
  if (off_count <? on_count) && (status_count <? on_count) then TurnOnWater
  else if (on_count <? off_count) && (status_count <? off_count) then TurnOffWater
  else if (on_count <? status_count) && (off_count <? status_count) then GetStatus
  else Unknown.

Definition classify_by_occurrences (text : string) : Intent :=
  let text_lower := Str.lower text in
  if found (search re_turn_off text_lower) || found (search re_turn_of text_lower)
  then TurnOffWater
  else if found (search re_turn_on text_lower) || found (search re_water_on text_lower)
  then TurnOnWater
  else winner (occurrence_count on_keywords text_lower)
              (occurrence_count off_keywords text_lower)
              (occurrence_count status_keywords text_lower).

(** What [ask] does with a message that is a non-empty text. *)
Definition handle (text : string) : M string :=
  plant_names ← lift (extract_plants text);
  bed_index ← lift (parse_location text);
  process_command (classify_intent text) plant_names
    (if decide (classify_intent text = TurnOnWater)
     then parse_intensity text else 0)
    bed_index.

(** The level that a command writes, if it writes. *)
Definition written_level (intent : Intent) (intensity : Z) : Z :=
  match intent with TurnOnWater => intensity | _ => 0 end.

Definition valid_level (z : Z) : Prop := z = 0 ∨ z = 1 ∨ z = 2.

Definition valid_grid (g : grid) : Prop := ∀ i j, valid_level (cell g i j).

(** The 25 positions of the grid, and the number of the positions at which
    [g] holds the level [v]. *)
Definition positions : list (fin ROWS * fin COLS) := enum (fin ROWS * fin COLS).


(** The grids that the service can hold: the initial one, those left by a
    request to [/ask], and those left by a command processed with one of
    the three levels as its intensity. *)
Inductive reachable : grid → Prop :=
  | reachable_init : reachable water_status_init
  | reachable_ask request g : reachable g → reachable (ask request g).2
  | reachable_command intent plant_names intensity bed_index g :
      reachable g → valid_level intensity →
      reachable (process_command intent plant_names intensity bed_index g).2.

(** The character before the end of [s], or [p] when [s] is empty, and the
    first character of [s]. *)
Fixpoint last_char (p : option ascii) (s : string) : option ascii :=
  match s with
  | EmptyString => p
  | String c s' => last_char (Some c) s'
  end.

Definition first_char (s : string) : option ascii :=
  match s with
  | EmptyString => None
  | String c _ => Some c
  end.

Definition word_end (pre : string) : bool := word_opt (last_char None pre).
Definition word_start (post : string) : bool := word_opt (first_char post).

Fixpoint all_chars (f : ascii → bool) (s : string) : bool :=
  match s with
  | EmptyString => true
  | String c s' => f c && all_chars f s'
  end.

Definition reads (cur : cursor) (w : string) (cur' : cursor) : Prop :=
  rest cur = w ++ rest cur' ∧ before cur' = last_char (before cur) w.

(** A continuation accepts a cursor when it succeeds there whatever group
    1 holds. *)
Definition accepts {R : Type} (k : @cont R) (cur : cursor) : Prop :=
  ∀ cap, is_Some (k cur cap).

(** [w] occurs in [s] between word boundaries. *)
Definition occurs_bounded (L : string → Prop) (s : string) : Prop :=
  ∃ pre w post, s = pre ++ w ++ post ∧ L w
                ∧ word_end pre = false ∧ word_start post = false.

Definition whole_word (w s : string) : Prop := occurs_bounded (λ x, x = w) s.

(** [first], white space, [second]. *)
Definition spaced (first second w : string) : Prop :=
  ∃ gap, w = first ++ gap ++ second
         ∧ gap ≠ "" ∧ all_chars Chars.is_space gap = true.

Definition phrase (first second s : string) : Prop :=
  occurs_bounded (spaced first second) s.

(** The word "water", then on the same line the word "on". *)
Definition water_to_on (w : string) : Prop :=
  ∃ mid, w = "water" ++ mid ++ "on"
         ∧ all_chars Chars.not_newline mid = true
         ∧ word_start mid = false ∧ word_end mid = false ∧ mid ≠ "".

Definition water_then_on (s : string) : Prop := occurs_bounded water_to_on s.

(** The keywords of a set that the classifier finds in the text. *)
Definition present (keywords : list string) (text_lower : string) : list string :=
  filter (λ keyword, found (search (re_keyword keyword) text_lower) = true)
         keywords.

(** All the keywords of the classifier. *)
Definition classifier_keywords : list string :=
  (on_keywords ++ off_keywords ++ status_keywords)%list.

(** The word "water" followed later by the word "on", wherever. *)
Definition water_later_on (s : string) : Prop :=
  ∃ pre mid post, s = pre ++ "water" ++ mid ++ "on" ++ post
                  ∧ word_end pre = false ∧ word_start mid = false
                  ∧ word_end mid = false ∧ mid ≠ ""
                  ∧ word_start post = false.

(** The intents that write to the grid. *)
Definition waters (intent : Intent) : Prop :=
  intent = TurnOnWater ∨ intent = TurnOffWater.

(** Row [i] is among the rows that [r] addresses: that row, or every row
    when there is no bed. *)
Definition in_target (r : option (fin ROWS)) (i : fin ROWS) : Prop :=
  match r with Some r' => i = r' | None => True end.

(** A named plant stands at [(i, j)]. *)
Definition names_plant_at (plant_names : list string) (i : fin ROWS)
    (j : fin COLS) : Prop :=
  ∃ name, name ∈ plant_names
          ∧ dict_get plant_map name = Some (cell plant_matrix i j).

(** The cells that a watering command writes: none when no plant code
    resolves or the bed index addresses no row. *)
Definition written_cells (plant_names : list string) (bed_index : option Z)
    (i : fin ROWS) (j : fin COLS) : bool :=
  negb (is_empty (resolve_codes plant_names))
  && match target bed_index with
     | Some r => selects (resolve_codes plant_names) r i j
     | None => false
     end.

(** [k] occurs in [s]. *)
Definition substring (k s : string) : Prop := ∃ pre post, s = pre ++ k ++ post.


(** Membership in a list that is written out: [in_list] proves it, and
    [each_member H tac] runs [tac] for each member that [H] allows. *)
Ltac in_list :=
  repeat first [apply list_elem_of_here | apply list_elem_of_further].

Ltac each_member H tac :=
  repeat (apply elem_of_cons in H as [->|H]; [tac|]);
  by apply elem_of_nil in H.

(** [grid_vars g] replaces the grid [g] by its 25 entries. *)
Ltac grid_vars g :=
  let row_vars r := (inv_vec r; intros ? ? ? ? ?) in
  inv_vec g;
  let r0 := fresh "r" in let r1 := fresh "r" in let r2 := fresh "r" in
  let r3 := fresh "r" in let r4 := fresh "r" in
  intros r0 r1 r2 r3 r4;
  row_vars r0; row_vars r1; row_vars r2; row_vars r3; row_vars r4.

(** ** The grid operations, cell by cell *)

Lemma matrix_eq {A : Type} (m1 m2 : matrix A) :
  (∀ i j, cell m1 i j = cell m2 i j) → m1 = m2.
Proof.
  intros H. apply vec_eq. intros i. apply vec_eq. intros j. apply H.
Qed.

Lemma cell_paint P v g i j :
  cell (paint P v g) i j = if P i j then v else cell g i j.
Proof. unfold paint, cell. by rewrite !lookup_fun_to_vec. Qed.

Lemma paint_ext P Q v g :
  (∀ i j, P i j = Q i j) → paint P v g = paint Q v g.
Proof.
  intros H. apply matrix_eq. intros i j. by rewrite !cell_paint, H.
Qed.

Lemma paint_none v g : paint (λ _ _, false) v g = g.
Proof. apply matrix_eq. intros i j. by rewrite cell_paint. Qed.

Lemma paint_paint P Q v g :
  paint Q v (paint P v g) = paint (λ i j, P i j || Q i j) v g.
Proof.
  apply matrix_eq. intros i j. rewrite !cell_paint.
  by destruct (P i j), (Q i j).
Qed.

Lemma paint_idem P v g : paint P v (paint P v g) = paint P v g.
Proof.
  rewrite paint_paint. apply paint_ext. intros i j. by destruct (P i j).
Qed.

Lemma fill_paint v g : fill v g = paint (λ _ _, true) v g.
Proof.
  apply matrix_eq. intros i j. rewrite cell_paint.
  unfold fill, cell. by rewrite !vlookup_replicate.
Qed.

Lemma set_row_paint r v g :
  set_row r v g = paint (λ i _, bool_decide (i = r)) v g.
Proof.
  apply matrix_eq. intros i j. rewrite cell_paint. unfold set_row, cell.
  case_bool_decide as Hi.
  - subst i. by rewrite vlookup_insert, vlookup_replicate.
  - by rewrite vlookup_insert_ne.
Qed.

Lemma set_plant_paint plant_code v g :
  set_plant plant_code v g
  = paint (λ i j, String.eqb (cell plant_matrix i j) plant_code) v g.
Proof.
  apply matrix_eq. intros i j. rewrite cell_paint.
  unfold set_plant, set_where, cell. by rewrite !vlookup_zip_with.
Qed.

Lemma set_plant_in_row_paint r plant_code v g :
  set_plant_in_row r plant_code v g
  = paint (λ i j, bool_decide (i = r)
                  && String.eqb (cell plant_matrix i j) plant_code) v g.
Proof.
  apply matrix_eq. intros i j. rewrite cell_paint.
  unfold set_plant_in_row, set_where, cell.
  case_bool_decide as Hi; simpl.
  - subst i. by rewrite vlookup_insert, vlookup_zip_with.
  - by rewrite vlookup_insert_ne.
Qed.

(** ** The effect of the watering loops *)

Lemma int64_bounds z : int64 z = true ↔ - 2 ^ 63 ≤ z < 2 ^ 63.
Proof. unfold int64. rewrite andb_true_iff, Z.leb_le, Z.ltb_lt. lia. Qed.


Lemma outcome_ok {A B : Type} (x : A) (y : B) v bed_index :
  outcome x v bed_index
  = match outcome y v bed_index with Ok _ => Ok x | Raise e => Raise e end.
Proof.
  unfold outcome. destruct bed_index as [b|]; [destruct (row_of b)|];
    by destruct (int64 v).
Qed.

Lemma water_all_effect v bed_index g :
  water_all v bed_index g
  = (outcome () v bed_index,
     match target bed_index with
     | Some r =>
         if int64 v
         then paint (λ i _, match r with
                            | Some r' => bool_decide (i = r')
                            | None => true
                            end) v g
         else g
     | None => g
     end).
Proof.
  unfold outcome. destruct bed_index as [b|]; simpl.
  - unfold mbind, M_bind, row, store.
    destruct (row_of b) as [r|]; simpl; [|done].
    destruct (int64 v); [|done]. unfold modify. by rewrite set_row_paint.
  - unfold store. destruct (int64 v); [|done].
    unfold modify. by rewrite fill_paint.
Qed.

Lemma water_plants_everywhere plant_codes v g :
  int64 v = true →
  water_plants plant_codes v None g
  = (Ok (), paint (λ i j, mem (cell plant_matrix i j) plant_codes) v g).
Proof.
  intros Hv. revert g. induction plant_codes as [|c cs IH]; intros g; simpl.
  - by rewrite paint_none.
  - unfold mbind, M_bind, store, modify. rewrite Hv.
    by rewrite IH, set_plant_paint, paint_paint.
Qed.

Lemma water_plants_in_row plant_codes v b r g :
  int64 v = true → row_of b = Some r →
  water_plants plant_codes v (Some b) g
  = (Ok (), paint (λ i j, bool_decide (i = r)
                          && mem (cell plant_matrix i j) plant_codes) v g).
Proof.
  intros Hv Hr. revert g. induction plant_codes as [|c cs IH]; intros g; simpl.
  - rewrite <- (paint_none v g) at 1. f_equal. apply paint_ext.
    intros i j. by rewrite andb_false_r.
  - unfold mbind, M_bind, row, store, modify. rewrite Hr. simpl. rewrite Hv.
    unfold mbind, M_bind in IH. rewrite IH, set_plant_in_row_paint, paint_paint.
    f_equal. apply paint_ext. intros i j. simpl.
    by destruct (bool_decide (i = r)).
Qed.

(** With a level or a bed index that numpy refuses, the first assignment of
    the loop raises: nothing is written. *)
Lemma water_plants_refused plant_codes v bed_index g e :
  outcome () v bed_index = Raise e → plant_codes ≠ [] →
  water_plants plant_codes v bed_index g = (Raise e, g).
Proof.
  intros Ho Hne. destruct plant_codes as [|c cs]; [done|]. simpl.
  unfold outcome in Ho. unfold mbind, M_bind, row, store.
  destruct bed_index as [b|]; [destruct (row_of b) as [r|]; simpl|];
    destruct (int64 v); by inversion Ho.
Qed.

Lemma water_effect plant_codes v bed_index g :
  plant_codes ≠ [] →
  (if mem "all" plant_codes then water_all v bed_index
   else water_plants plant_codes v bed_index) g
  = (outcome () v bed_index,
     match target bed_index with
     | Some r => if int64 v then paint (selects plant_codes r) v g else g
     | None => g
     end).
Proof.
  intros Hne. unfold selects. destruct (mem "all" plant_codes) eqn:Hall.
  - rewrite water_all_effect. f_equal.
    destruct (target bed_index) as [r|]; [|done].
    destruct (int64 v); [|done]. apply paint_ext. intros i j.
    by rewrite andb_true_r.
  - destruct (outcome () v bed_index) as [[]|e] eqn:Ho.
    + unfold outcome in Ho.
      destruct bed_index as [b|]; simpl.
      * destruct (row_of b) as [r|] eqn:Hr; [|done]. simpl.
        destruct (int64 v) eqn:Hv; [|done].
        by rewrite (water_plants_in_row _ _ _ r).
      * destruct (int64 v) eqn:Hv; [|done].
        by rewrite water_plants_everywhere.
    + rewrite (water_plants_refused _ _ _ _ e) by done. f_equal.
      unfold outcome in Ho.
      destruct bed_index as [b|]; simpl; [destruct (row_of b); simpl|];
        by destruct (int64 v).
Qed.

Lemma is_empty_false {A : Type} (l : list A) : is_empty l = false ↔ l ≠ [].
Proof. by destruct l. Qed.

Lemma process_command_on plant_names v bed_index g :
  resolve_codes plant_names ≠ [] →
  process_command TurnOnWater plant_names v bed_index g
  = (outcome (on_reply plant_names v) v bed_index,
     watered plant_names v bed_index g).
Proof.
  intros Hne. unfold process_command, watered, on_reply.
  rewrite (proj2 (is_empty_false _) Hne).
  pose proof (water_effect (resolve_codes plant_names) v bed_index g Hne) as H.
  rewrite (outcome_ok _ () v bed_index).
  destruct (mem "all" (resolve_codes plant_names));
    unfold mbind, M_bind; rewrite H; by destruct (outcome () v bed_index).
Qed.

Lemma process_command_off plant_names v bed_index g :
  resolve_codes plant_names ≠ [] →
  process_command TurnOffWater plant_names v bed_index g
  = (outcome (off_reply plant_names) 0 bed_index,
     watered plant_names 0 bed_index g).
Proof.
  intros Hne. unfold process_command, watered, off_reply.
  rewrite (proj2 (is_empty_false _) Hne).
  pose proof (water_effect (resolve_codes plant_names) 0 bed_index g Hne) as H.
  rewrite (outcome_ok _ () 0 bed_index).
  destruct (mem "all" (resolve_codes plant_names));
    unfold mbind, M_bind; rewrite H; by destruct (outcome () 0 bed_index).
Qed.

Lemma process_command_status plant_names v bed_index g :
  resolve_codes plant_names ≠ [] →
  process_command GetStatus plant_names v bed_index g = (Ok (status_reply g), g).
Proof.
  intros Hne. unfold process_command.
  by rewrite (proj2 (is_empty_false _) Hne).
Qed.

Lemma process_command_unknown plant_names v bed_index g :
  resolve_codes plant_names ≠ [] →
  process_command Unknown plant_names v bed_index g = (Ok not_understood, g).
Proof.
  intros Hne. unfold process_command.
  by rewrite (proj2 (is_empty_false _) Hne).
Qed.

Lemma process_command_no_plant intent plant_names v bed_index g :
  resolve_codes plant_names = [] →
  process_command intent plant_names v bed_index g = (Ok not_recognized, g).
Proof. intros He. unfold process_command. by rewrite He. Qed.

Lemma process_command_grid intent plant_names v bed_index g :
  (process_command intent plant_names v bed_index g).2
  = match intent with
    | TurnOnWater | TurnOffWater =>
        watered plant_names (written_level intent v) bed_index g
    | _ => g
    end.
Proof.
  destruct (decide (resolve_codes plant_names = [])) as [He|Hne].
  - rewrite process_command_no_plant by done. unfold watered. rewrite He.
    by destruct intent.
  - destruct intent; simpl.
    + by rewrite process_command_on.
    + by rewrite process_command_off.
    + by rewrite process_command_status.
    + by rewrite process_command_unknown.
Qed.

Lemma watered_idem plant_names v bed_index g :
  watered plant_names v bed_index (watered plant_names v bed_index g)
  = watered plant_names v bed_index g.
Proof.
  unfold watered. destruct (is_empty (resolve_codes plant_names)); [done|].
  destruct (target bed_index); [|done]. destruct (int64 v); [|done].
  apply paint_idem.
Qed.

(** C3. Processing a TurnOnWater command a second time, right after the
    first, leaves the grid as the first left it: this holds for every list of
    plant names, every intensity, every bed index (absent, in range, or out
    of range, where the command raises and writes nothing) and every grid. *)
Theorem turn_on_idempotent (plant_names : list string) (intensity : Z)
    (bed_index : option Z) (g : grid) :
  let once := (process_command TurnOnWater plant_names intensity bed_index g).2 in
  (process_command TurnOnWater plant_names intensity bed_index once).2 = once.
Proof.
  simpl. rewrite !process_command_grid. apply watered_idem.
Qed.

(** ** Requests that carry a text message *)

Lemma ask_try_post text g :
  text ≠ "" → ask_try (post text) g = handle text g.
Proof.
  intros Hne. unfold ask_try, post, handle, lift, mbind, M_bind, get_message.
  cbn [reverse rev_append dict_get List.find fst snd fmap option_fmap option_map
       default as_text truthy].
  replace (String.eqb "message" "message") with true by reflexivity.
  cbn [fmap option_fmap option_map default snd]. unfold id.
  cbn [truthy as_text].
  destruct (String.eqb_spec text "") as [->|_]; [done|]. reflexivity.
Qed.

Lemma handle_with text g intent plant_names bed_index :
  classify_intent text = intent →
  extract_plants text = Ok plant_names →
  parse_location text = Ok bed_index →
  handle text g
  = process_command intent plant_names
      (if decide (intent = TurnOnWater) then parse_intensity text else 0)
      bed_index g.
Proof.
  intros Hi Hp Hl. unfold handle, lift, mbind, M_bind.
  by rewrite Hi, Hp, Hl.
Qed.

(** C1. Whatever the grid, the request [{"message": "turn on basil"}] is
    answered with status 200 and the reply "Turning on water for Basil
    (DRIP).", and leaves a grid in which every cell whose layout entry is
    "Ba" holds 1 and every other cell holds what it held before. *)
Theorem ask_turn_on_basil (g : grid) :
  (ask (post "turn on basil") g).1
    = Response 200 "Turning on water for Basil (DRIP)."
  ∧ ∀ i j, cell (ask (post "turn on basil") g).2 i j
           = if String.eqb (cell plant_matrix i j) "Ba" then 1 else cell g i j.
Proof.
  assert (ask (post "turn on basil") g
          = (Response 200 "Turning on water for Basil (DRIP).",
             watered ["basil"] 1 None g)) as ->.
  { unfold ask. rewrite ask_try_post by done.
    rewrite (handle_with _ _ TurnOnWater ["basil"] None)
      by (vm_compute; reflexivity).
    rewrite process_command_on by done.
    replace (parse_intensity "turn on basil") with 1 by (vm_compute; reflexivity).
    reflexivity. }
  split; [done|]. intros i j. simpl.
  unfold watered. simpl. rewrite cell_paint. unfold selects. simpl.
  by rewrite orb_false_r.
Qed.

Lemma fin_rows_1 (i : fin ROWS) : i = 1%fin ↔ fin_to_nat i = 1%nat.
Proof.
  split; [by intros ->|]. intros H. by apply (inj fin_to_nat).
Qed.

(** C2. The text "turn on basil in bed 2" is parsed into the command
    (TurnOnWater, [basil], DRIP, row 1), which is the command that [/ask]
    processes for it; and processing that command with any requested
    intensity that a cell can hold sets to this intensity exactly the cells
    of row 1 (0-based) whose layout code is "Ba": every cell of another row,
    and every cell of row 1 with another code, keeps its value.  An
    intensity outside the 64-bit range is refused with OverflowError, and
    then every cell keeps its value. *)
Theorem turn_on_basil_in_bed_2 :
  let text := "turn on basil in bed 2" in
  (classify_intent text = TurnOnWater
   ∧ extract_plants text = Ok ["basil"]
   ∧ parse_location text = Ok (Some 1)
   ∧ parse_intensity text = 1)
  ∧ (∀ g, ask (post text) g
          = (Response 200 "Turning on water for Basil (DRIP).",
             (process_command TurnOnWater ["basil"] 1 (Some 1) g).2))
  ∧ (∀ (intensity : Z) (g : grid),
       - 2 ^ 63 ≤ intensity < 2 ^ 63 →
       let after := process_command TurnOnWater ["basil"] intensity (Some 1) g in
       after.1 = Ok ("Turning on water for Basil (" ++ level_name intensity ++ ").")
       ∧ ∀ i j, cell after.2 i j
                = if bool_decide (fin_to_nat i = 1%nat)
                     && String.eqb (cell plant_matrix i j) "Ba"
                  then intensity else cell g i j)
  ∧ (∀ (intensity : Z) (g : grid),
       ¬ (- 2 ^ 63 ≤ intensity < 2 ^ 63) →
       process_command TurnOnWater ["basil"] intensity (Some 1) g
       = (Raise OverflowError, g)).
Proof.
  split; [by vm_compute|]. split; [|split].
  { intros g. unfold ask. rewrite ask_try_post by done.
    rewrite (handle_with _ _ TurnOnWater ["basil"] (Some 1))
      by (vm_compute; reflexivity).
    replace (parse_intensity "turn on basil in bed 2") with 1
      by (vm_compute; reflexivity).
    destruct (decide (TurnOnWater = TurnOnWater)) as [_|]; [|done].
    rewrite !process_command_on by done. reflexivity. }
  - intros intensity g Hv%int64_bounds. cbv zeta.
    rewrite process_command_on by done. cbn [fst snd]. split.
    { unfold outcome.
      replace (row_of 1) with (Some (1%fin : fin ROWS))
        by (vm_compute; reflexivity).
      by rewrite Hv. }
    intros i j. unfold watered.
    replace (target (Some 1)) with (Some (Some (1%fin : fin ROWS)))
      by (vm_compute; reflexivity).
    rewrite Hv. simpl. rewrite cell_paint. unfold selects. simpl.
    rewrite orb_false_r.
    by rewrite (bool_decide_ext _ _ (fin_rows_1 i)).
  - intros intensity g Hv. rewrite process_command_on by done.
    assert (int64 intensity = false) as Hv'.
    { destruct (int64 intensity) eqn:H; [|done]. by apply int64_bounds in H. }
    unfold outcome, watered.
    replace (target (Some 1)) with (Some (Some (1%fin : fin ROWS)))
      by (vm_compute; reflexivity).
    replace (row_of 1) with (Some (1%fin : fin ROWS))
      by (vm_compute; reflexivity).
    by rewrite Hv'.
Qed.

Lemma turn_on_basil_in_bed_2_witness :
  let after :=
    process_command TurnOnWater ["basil"] 2 (Some 1) water_status_init in
  after.1 = Ok "Turning on water for Basil (SHOWER)."
  ∧ cell after.2 1%fin 2%fin = 2
  ∧ cell after.2 1%fin 1%fin = 0
  ∧ cell after.2 0%fin 1%fin = 0
  ∧ process_command TurnOnWater ["basil"] (2 ^ 63) (Some 1) water_status_init
    = (Raise OverflowError, water_status_init).
Proof.
  destruct turn_on_basil_in_bed_2 as (_ & _ & Hfits & Hover).
  destruct (Hfits 2 water_status_init) as [Hreply Hcells]; [lia|].
  split; [exact Hreply|].
  split; [exact (Hcells 1%fin 2%fin)|].
  split; [exact (Hcells 1%fin 1%fin)|].
  split; [exact (Hcells 0%fin 1%fin)|].
  apply Hover. lia.
Defined.

(** ** The plant extractor never fails and returns catalog names *)

Lemma add_plant_proper plant_code plants_found :
  Forall (λ n, n ∈ plant_names_proper) plants_found →
  Forall (λ n, n ∈ plant_names_proper) (add_plant plant_code plants_found).
Proof.
  intros Hf. unfold add_plant.
  destruct (List.find _ plant_map) as [[name c]|] eqn:Hfind; [|done].
  destruct (mem name plants_found); [done|].
  apply Forall_app. split; [done|]. apply Forall_singleton.
  apply List.find_some in Hfind as [Hin Hcond].
  apply andb_true_iff in Hcond as [_ Hcond]. simpl in Hin, Hcond.
  repeat (destruct Hin as [Hin|Hin];
          [inversion Hin; subst; first [done | in_list]|]).
  done.
Qed.

Lemma exact_pass_proper tokens plants_found :
  Forall (λ n, n ∈ plant_names_proper) plants_found →
  Forall (λ n, n ∈ plant_names_proper) (exact_pass tokens plants_found).
Proof.
  revert plants_found. induction tokens as [|t ts IH]; intros pf Hf; simpl.
  - done.
  - destruct (dict_get PLANT_SYNONYMS t); auto using add_plant_proper.
Qed.

Lemma max_pair_elem cur l : Difflib.max_pair cur l ∈ cur :: l.
Proof.
  revert cur. induction l as [|p l IH]; intros cur; simpl.
  - apply list_elem_of_here.
  - pose proof (IH (if Difflib.pair_lt cur p then p else cur)) as H.
    destruct (Difflib.pair_lt cur p).
    + by apply list_elem_of_further.
    + apply elem_of_cons in H as [->|H].
      * apply list_elem_of_here.
      * by do 2 apply list_elem_of_further.
Qed.

Lemma scored_elem word c possibilities p :
  p ∈ Difflib.scored word c possibilities → p.2 ∈ possibilities.
Proof.
  unfold Difflib.scored. rewrite list_elem_of_omap. intros (x & Hx & Hp).
  destruct (_ && _); [|done]. by inversion Hp.
Qed.

(** Whatever [get_close_matches] returns is one of the possibilities. *)
Lemma get_close_matches_elem word possibilities c x :
  x ∈ Difflib.get_close_matches word possibilities c → x ∈ possibilities.
Proof.
  unfold Difflib.get_close_matches.
  destruct (Difflib.scored word c possibilities) as [|p l] eqn:Hs;
    [by intros ?%elem_of_nil|].
  rewrite list_elem_of_singleton. intros ->.
  apply (scored_elem word c). rewrite Hs. apply max_pair_elem.
Qed.

Lemma synonym_code_keys key :
  key ∈ dict_keys PLANT_SYNONYMS → ∃ code, synonym_code key = Ok code.
Proof.
  intros Hk. cbn in Hk. each_member Hk ltac:(eexists; reflexivity).
Qed.

Lemma fuzzy_pass_total synonyms_list tokens plants_found :
  (∀ key, key ∈ synonyms_list → ∃ code, synonym_code key = Ok code) →
  Forall (λ n, n ∈ plant_names_proper) plants_found →
  ∃ names, fuzzy_pass synonyms_list tokens plants_found = Ok names
           ∧ Forall (λ n, n ∈ plant_names_proper) names.
Proof.
  intros Hkeys. revert plants_found.
  induction tokens as [|t ts IH]; intros pf Hf; cbn [fuzzy_pass].
  - by exists pf.
  - destruct (Difflib.get_close_matches t synonyms_list cutoff)
      as [|close0 others] eqn:Hc; [by apply IH|].
    destruct (Hkeys close0) as [code Hcode].
    { apply (get_close_matches_elem t _ cutoff). rewrite Hc.
      apply list_elem_of_here. }
    rewrite Hcode. apply IH. by apply add_plant_proper.
Qed.

Lemma fuzzy_pass_proper tokens plants_found :
  Forall (λ n, n ∈ plant_names_proper) plants_found →
  ∃ names, fuzzy_pass (dict_keys PLANT_SYNONYMS) tokens plants_found = Ok names
           ∧ Forall (λ n, n ∈ plant_names_proper) names.
Proof. apply fuzzy_pass_total, synonym_code_keys. Qed.

Lemma fallback_all (b : bool) (found : list string) :
  (let plants_found := if b && is_empty found then ["all"] else found in
   if is_empty plants_found then ["all"] else plants_found)
  = if is_empty found then ["all"] else found.
Proof. destruct found; simpl; [|by rewrite andb_false_r]. by destruct b. Qed.

Lemma extract_plants_run_cases text :
  ∃ found,
    plants_before_fallback text = Ok found
    ∧ Forall (λ n, n ∈ plant_names_proper) found
    ∧ extract_plants_run text
      = (if fuzzy_runs (exact_pass (tokenize (Str.lower text)) [])
                       (tokenize (Str.lower text))
         then [ExactPass; FuzzyPass] else [ExactPass],
         Ok (if is_empty found then ["all"] else found)).
Proof.
  unfold extract_plants_run, plants_before_fallback.
  set (tokens := tokenize (Str.lower text)).
  pose proof (exact_pass_proper tokens [] (Forall_nil_2 _)) as Hex.
  destruct (fuzzy_runs (exact_pass tokens []) tokens).
  - destruct (fuzzy_pass_proper tokens _ Hex) as (names & -> & Hn).
    exists names. split; [done|]. split; [done|].
    cbn [mbind result_bind]. by rewrite fallback_all.
  - exists (exact_pass tokens []). split; [done|]. split; [done|].
    cbn [mbind result_bind]. by rewrite fallback_all.
Qed.

Lemma extract_plants_cases text :
  ∃ found, plants_before_fallback text = Ok found
           ∧ Forall (λ n, n ∈ plant_names_proper) found
           ∧ extract_plants text = Ok (if is_empty found then ["all"] else found).
Proof.
  destruct (extract_plants_run_cases text) as (found & Hf & Hp & Hrun).
  exists found. split; [done|]. split; [done|].
  unfold extract_plants. by rewrite Hrun.
Qed.

Lemma resolve_codes_keys plant_names :
  plant_names ≠ [] →
  Forall (λ n, n ∈ dict_keys plant_map) plant_names →
  resolve_codes plant_names ≠ [].
Proof.
  intros Hne Hf. destruct plant_names as [|n ns]; [done|].
  apply Forall_cons in Hf as [Hn _]. cbn in Hn.
  unfold resolve_codes. simpl. each_member Hn ltac:(done).
Qed.

Lemma proper_is_key n : n ∈ plant_names_proper → n ∈ dict_keys plant_map.
Proof. intros H. cbn in H. each_member H ltac:(cbn; in_list). Qed.

Lemma extract_plants_ok text :
  ∃ plant_names,
    extract_plants text = Ok plant_names
    ∧ plant_names ≠ []
    ∧ Forall (λ n, n ∈ dict_keys plant_map) plant_names.
Proof.
  destruct (extract_plants_cases text) as (found & _ & Hf & ->).
  eexists. split; [done|]. destruct found as [|n ns]; simpl.
  - split; [done|]. apply Forall_singleton. cbn. in_list.
  - split; [done|]. eapply Forall_impl; [exact Hf|]. apply proper_is_key.
Qed.

(** ** The shape of every answer of [ask] *)

Lemma handle_cases text g :
  ∃ plant_names,
    extract_plants text = Ok plant_names
    ∧ resolve_codes plant_names ≠ []
    ∧ handle text g
      = match parse_location text with
        | Ok bed_index =>
            process_command (classify_intent text) plant_names
              (if decide (classify_intent text = TurnOnWater)
               then parse_intensity text else 0)
              bed_index g
        | Raise e => (Raise e, g)
        end.
Proof.
  destruct (extract_plants_ok text) as (names & Hn & Hne & Hk).
  exists names. split; [done|]. split; [by apply resolve_codes_keys|].
  destruct (parse_location text) as [bed|e] eqn:Hp.
  - by apply handle_with.
  - unfold handle, lift, mbind, M_bind. by rewrite Hn, Hp.
Qed.

(** A request either carries a non-empty text, which [handle] processes, or
    is answered without touching the grid: with the prompt when the message
    is missing or falsy, with the apology when reading it raises. *)
Ltac raises_here :=
  right; right; eexists; (split; [|reflexivity]); auto.

Lemma ask_try_cases request g :
  (∃ text, text ≠ "" ∧ ask_try request g = handle text g)
  ∨ ask_try request g = (Ok "Please send a message.", g)
  ∨ ∃ e, (e = BadRequest ∨ e = AttributeError)
         ∧ ask_try request g = (Raise e, g).
Proof.
  destruct request as [data|]; [|raises_here].
  destruct data as [| | | | |members]; try raises_here.
  unfold ask_try, lift, mbind, M_bind, get_message.
  destruct (default (JStr "") (dict_get (reverse members) "message"))
    as [|b|n|s|items|fields] eqn:Hm; cbn [truthy negb as_text].
  - right; left; done.
  - destruct b; cbn [negb]; [raises_here | right; left; done].
  - destruct (n =? 0); cbn [negb]; [right; left; done | raises_here].
  - destruct (String.eqb_spec s "") as [->|Hs]; cbn [negb]; [right; left; done|].
    left. exists s. split; [done|]. reflexivity.
  - destruct items; cbn [is_empty negb]; [right; left; done | raises_here].
  - destruct fields; cbn [is_empty negb]; [right; left; done | raises_here].
Qed.

Lemma to_fin_some (n i : nat) : (i < n)%nat → is_Some (to_fin n i).
Proof.
  revert i. induction n as [|n IH]; intros i Hi; [lia|].
  destruct i as [|i]; simpl; [by eexists|].
  destruct (IH i) as [x ->]; [lia|]. by eexists.
Qed.

Lemma row_of_in_rows idx : in_rows idx = true → is_Some (row_of idx).
Proof.
  unfold in_rows, row_of. intros H. rewrite H.
  apply andb_true_iff in H as [H0 H5].
  apply Z.leb_le in H0. apply Z.ltb_lt in H5. apply to_fin_some. lia.
Qed.

Lemma parse_location_run_cases text :
  parse_location_run text
  = match search re_bed_digits (Str.lower text) with
    | Some mo =>
        if int_max_str_digits <? Z.of_nat (String.length (group_1 mo))
        then ([DigitPattern], Raise ValueError)
        else if in_rows (Str.int_of_digits (group_1 mo) - 1)
        then ([DigitPattern], Ok (Some (Str.int_of_digits (group_1 mo) - 1)))
        else ([DigitPattern; WordPattern],
              Ok (location_from_word (Str.lower text)))
    | None =>
        ([DigitPattern; WordPattern], Ok (location_from_word (Str.lower text)))
    end.
Proof.
  unfold parse_location_run, location_from_word, int.
  destruct (search re_bed_digits (Str.lower text)) as [mo|]; [|done].
  destruct (int_max_str_digits <? _); [done|]. cbn [mbind result_bind].
  by destruct (in_rows (Str.int_of_digits (group_1 mo) - 1)).
Qed.

Lemma location_from_word_in_rows text_lower idx :
  location_from_word text_lower = Some idx → in_rows idx = true.
Proof.
  unfold location_from_word.
  destruct (search re_bed_word text_lower) as [mo|]; [|done].
  destruct (in_rows (default 1 _ - 1)) eqn:Hw; [|done]. by intros [= <-].
Qed.

Lemma parse_location_in_rows text idx :
  parse_location text = Ok (Some idx) → in_rows idx = true.
Proof.
  unfold parse_location. rewrite parse_location_run_cases.
  destruct (search re_bed_digits (Str.lower text)) as [mo|];
    [destruct (int_max_str_digits <? _); [done|];
     destruct (in_rows (Str.int_of_digits (group_1 mo) - 1)) eqn:Hd|];
    cbn [snd]; intros [= H]; subst;
    first [exact Hd | by apply (location_from_word_in_rows (Str.lower text))].
Qed.

(** The only exception that [parse_location] raises is the one of [int]. *)
Lemma parse_location_raises text e :
  parse_location text = Raise e →
  e = ValueError
  ∧ ∃ digits, bed_digits (Str.lower text) = Some digits
              ∧ 4300 < Z.of_nat (String.length digits).
Proof.
  unfold parse_location, bed_digits. rewrite parse_location_run_cases.
  destruct (search re_bed_digits (Str.lower text)) as [mo|]; [|done].
  destruct (Z.ltb_spec int_max_str_digits
              (Z.of_nat (String.length (group_1 mo)))) as [Hlen|_].
  - intros [= <-]. split; [done|]. by exists (group_1 mo).
  - by destruct (in_rows _).
Qed.



Lemma parse_intensity_level text : valid_level (parse_intensity text).
Proof.
  unfold parse_intensity, valid_level.
  destruct (any_in shower_keywords _); [auto|].
  destruct (any_in drip_keywords _); auto.
Qed.


Lemma process_command_recognized intent plant_names v bed_index g :
  resolve_codes plant_names ≠ [] →
  (process_command intent plant_names v bed_index g).1 ≠ Ok not_recognized.
Proof.
  intros Hne. destruct intent.
  - rewrite process_command_on by done. unfold outcome, on_reply. simpl.
    destruct bed_index as [b|]; [destruct (row_of b); [|done]|];
      (destruct (int64 v); [|done]); destruct (mem "all" _); intros [=].
  - rewrite process_command_off by done. unfold outcome, off_reply. simpl.
    destruct bed_index as [b|]; [destruct (row_of b); [|done]|];
      destruct (mem "all" _); intros [=].
  - rewrite process_command_status by done. intros [=].
  - rewrite process_command_unknown by done. intros [=].
Qed.

(** C10. For every text the plant extractor returns, without raising, a
    list of names that is not empty, is ["all"] when no plant was found, and
    holds only keys of the plant catalog; so the codes that the command
    processor resolves from it are never empty, and no request to [/ask] is
    answered with the "I don't recognize those plants" reply. *)
Theorem extract_plants_never_empty :
  (∀ text, ∃ plant_names,
      extract_plants text = Ok plant_names
      ∧ plant_names ≠ []
      ∧ Forall (λ n, n ∈ dict_keys plant_map) plant_names
      ∧ resolve_codes plant_names ≠ []
      ∧ (plants_before_fallback text = Ok [] → plant_names = ["all"]))
  ∧ (∀ request g, reply (ask request g).1 ≠ not_recognized).
Proof.
  split.
  - intros text. destruct (extract_plants_ok text) as (names & Hn & Hne & Hk).
    exists names. repeat split; try done.
    + by apply resolve_codes_keys.
    + intros Hb. destruct (extract_plants_cases text) as (found & Hf & _ & He).
      rewrite Hb in Hf. inversion Hf; subst found. simpl in He. congruence.
  - intros request g. unfold ask.
    destruct (ask_try_cases request g) as [(text & _ & ->)|[->|(e & _ & ->)]];
      [|by intros [=]..].
    destruct (handle_cases text g) as (names & _ & Hne & ->).
    destruct (parse_location text) as [bed_index|e]; [|by intros [=]].
    pose proof (process_command_recognized (classify_intent text) names
      (if decide (classify_intent text = TurnOnWater)
       then parse_intensity text else 0) bed_index g Hne) as Hr.
    destruct (process_command _ _ _ _ g) as [[r|e] g']; simpl in *.
    + congruence.
    + intros [=].
Qed.

Lemma extract_plants_never_empty_witness :
  extract_plants "hello there" = Ok ["all"]
  ∧ reply (ask (post "hello there") water_status_init).1 ≠ not_recognized.
Proof.
  destruct extract_plants_never_empty as [Hnames Hreply]. split.
  - destruct (Hnames "hello there") as (names & He & _ & _ & _ & Hall).
    rewrite He. f_equal. apply Hall. vm_compute. reflexivity.
  - apply Hreply.
Defined.

(** ** The levels held by the grid *)

Lemma paint_valid P v g :
  valid_level v → valid_grid g → valid_grid (paint P v g).
Proof.
  intros Hv Hg i j. rewrite cell_paint. by destruct (P i j).
Qed.

Lemma watered_valid plant_names v bed_index g :
  valid_level v → valid_grid g → valid_grid (watered plant_names v bed_index g).
Proof.
  intros Hv Hg. unfold watered.
  destruct (is_empty _); [done|].
  destruct (target bed_index); [|done].
  destruct (int64 v); [|done]. by apply paint_valid.
Qed.

Lemma init_valid : valid_grid water_status_init.
Proof.
  intros i j. unfold cell, water_status_init. rewrite !vlookup_replicate.
  by left.
Qed.

Lemma handle_valid text g : valid_grid g → valid_grid (handle text g).2.
Proof.
  intros Hg. destruct (handle_cases text g) as (names & _ & _ & ->).
  destruct (parse_location text) as [bed_index|e]; [|done].
  rewrite process_command_grid.
  destruct (classify_intent text); try done.
  - apply watered_valid; [|done]. apply parse_intensity_level.
  - apply watered_valid; [|done]. by left.
Qed.

Lemma ask_grid request g :
  (ask request g).2 = (ask_try request g).2.
Proof. unfold ask. by destruct (ask_try request g) as [[r|e] g']. Qed.

Lemma ask_valid request g : valid_grid g → valid_grid (ask request g).2.
Proof.
  intros Hg. rewrite ask_grid.
  destruct (ask_try_cases request g) as [(text & _ & ->)|[->|(e & _ & ->)]]; try done.
  by apply handle_valid.
Qed.

Lemma process_command_valid intent plant_names v bed_index g :
  valid_level v → valid_grid g →
  valid_grid (process_command intent plant_names v bed_index g).2.
Proof.
  intros Hv Hg. rewrite process_command_grid.
  destruct intent; try done; apply watered_valid; try done. by left.
Qed.

Lemma reachable_valid g : reachable g → valid_grid g.
Proof.
  induction 1 as [|request g _ IH|intent names v bed g _ IH Hv].
  - apply init_valid.
  - by apply ask_valid.
  - by apply process_command_valid.
Qed.

(** ** Counting the cells *)







Lemma positions_all : NoDup positions ∧ ∀ i j, (i, j) ∈ positions.
Proof.
  split; [apply NoDup_enum|]. intros i j. apply elem_of_enum.
Qed.





(** ** The two passes of the plant extractor *)

Lemma mem_elem (x : string) (l : list string) : mem x l = true ↔ x ∈ l.
Proof.
  unfold mem. rewrite existsb_exists. split.
  - intros (y & Hy & Heq). apply String.eqb_eq in Heq. subst y.
    by apply list_elem_of_In.
  - intros Hx. exists x. split; [by apply list_elem_of_In|].
    apply String.eqb_refl.
Qed.

Lemma add_plant_keeps plant_code plants_found n :
  n ∈ plants_found → n ∈ add_plant plant_code plants_found.
Proof.
  intros Hn. unfold add_plant.
  destruct (List.find _ plant_map) as [[name c]|]; [|done].
  destruct (mem name plants_found); [done|].
  apply elem_of_app. by left.
Qed.

Lemma add_plant_length plant_code plants_found :
  (length (add_plant plant_code plants_found) ≤ S (length plants_found))%nat.
Proof.
  unfold add_plant.
  destruct (List.find _ plant_map) as [[name c]|]; [|lia].
  destruct (mem name plants_found); [lia|].
  rewrite length_app. simpl. lia.
Qed.

Lemma add_plant_NoDup plant_code plants_found :
  NoDup plants_found → NoDup (add_plant plant_code plants_found).
Proof.
  intros Hnd. unfold add_plant.
  destruct (List.find _ plant_map) as [[name c]|]; [|done].
  destruct (mem name plants_found) eqn:Hmem; [done|].
  apply NoDup_app. split; [done|]. split; [|apply NoDup_singleton].
  intros x Hx ->%list_elem_of_singleton.
  apply mem_elem in Hx. congruence.
Qed.

Lemma exact_pass_keeps tokens plants_found n :
  n ∈ plants_found → n ∈ exact_pass tokens plants_found.
Proof.
  revert plants_found. induction tokens as [|t ts IH]; intros pf Hn; [done|].
  simpl. destruct (dict_get PLANT_SYNONYMS t); auto using add_plant_keeps.
Qed.

Lemma exact_pass_tomoto tokens plants_found :
  "tomoto" ∈ tokens → "tomato" ∈ exact_pass tokens plants_found.
Proof.
  intros Ht. revert plants_found.
  induction tokens as [|t ts IH]; intros pf; [by apply elem_of_nil in Ht|].
  apply elem_of_cons in Ht as [<-|Ht]; [|simpl; destruct (dict_get _ t); auto].
  simpl. apply exact_pass_keeps. unfold add_plant. simpl.
  destruct (mem "tomato" pf) eqn:Hm; [by apply mem_elem in Hm|].
  apply elem_of_app. right. apply list_elem_of_here.
Qed.

Lemma fuzzy_pass_length synonyms_list tokens plants_found names :
  fuzzy_pass synonyms_list tokens plants_found = Ok names →
  (length names ≤ length plants_found + length tokens)%nat.
Proof.
  revert plants_found. induction tokens as [|t ts IH]; intros pf; simpl.
  - intros [= <-]. lia.
  - destruct (Difflib.get_close_matches t synonyms_list cutoff) as [|close0 ?].
    + intros H%IH. lia.
    + destruct (synonym_code close0) as [code|e]; simpl; [|done].
      intros H%IH. pose proof (add_plant_length code pf). lia.
Qed.

Lemma fuzzy_pass_NoDup synonyms_list tokens plants_found names :
  NoDup plants_found →
  fuzzy_pass synonyms_list tokens plants_found = Ok names → NoDup names.
Proof.
  revert plants_found. induction tokens as [|t ts IH]; intros pf Hnd; simpl.
  - by intros [= <-].
  - destruct (Difflib.get_close_matches t synonyms_list cutoff) as [|close0 ?].
    + by apply IH.
    + destruct (synonym_code close0) as [code|e]; simpl; [|done].
      apply IH. by apply add_plant_NoDup.
Qed.

Lemma fuzzy_runs_iff plants_found tokens :
  fuzzy_runs plants_found tokens = true ↔ plants_found = [] ∧ tokens ≠ [].
Proof.
  unfold fuzzy_runs. destruct plants_found, tokens; simpl; split;
    try done; by intros [? ?].
Qed.

Lemma add_plant_elem plant_code plants_found name :
  name ∈ add_plant plant_code plants_found →
  name ∈ plants_found ∨ dict_get plant_map name = Some plant_code.
Proof.
  unfold add_plant.
  destruct (List.find _ plant_map) as [[n c]|] eqn:Hf; [|by left].
  destruct (mem n plants_found); [by left|].
  intros [Hn|Hn%list_elem_of_singleton]%elem_of_app; [by left|]. subst n.
  right. apply List.find_some in Hf as [Hin Hcond].
  apply andb_true_iff in Hcond as [Hc%String.eqb_eq _]. simpl in Hc. subst c.
  simpl in Hin.
  repeat (destruct Hin as [Hin|Hin]; [by inversion Hin|]). done.
Qed.

(** Every name that the fuzzy loop adds is the plant of the one close match
    of some token. *)
Lemma fuzzy_pass_elem synonyms_list tokens plants_found names name :
  fuzzy_pass synonyms_list tokens plants_found = Ok names → name ∈ names →
  name ∈ plants_found
  ∨ ∃ token key plant_code,
      token ∈ tokens
      ∧ Difflib.get_close_matches token synonyms_list cutoff = [key]
      ∧ dict_get PLANT_SYNONYMS key = Some plant_code
      ∧ dict_get plant_map name = Some plant_code.
Proof.
  revert plants_found. induction tokens as [|t ts IH]; intros pf; simpl.
  - intros [= <-] Hn. by left.
  - destruct (Difflib.get_close_matches t synonyms_list cutoff)
      as [|close0 others] eqn:Hc.
    + intros Hf Hn. destruct (IH pf Hf Hn) as [?|(tk & k & c & Ht & ?)];
        [by left|]. right. exists tk, k, c. split; [|done].
      by apply list_elem_of_further.
    + assert (others = []) as ->.
      { unfold Difflib.get_close_matches in Hc.
        destruct (Difflib.scored _ _ _); by inversion Hc. }
      unfold synonym_code.
      destruct (dict_get PLANT_SYNONYMS close0) as [code|] eqn:Hk; [|done].
      cbn [mbind result_bind]. intros Hf Hn.
      destruct (IH _ Hf Hn) as [Hadd|(tk & k & c & Ht & ?)].
      * apply add_plant_elem in Hadd as [?|Hcode]; [by left|]. right.
        exists t, close0, code. split; [apply list_elem_of_here | done].
      * right. exists tk, k, c. split; [|done].
        by apply list_elem_of_further.
Qed.

(** C7, as written, fails: for "tomatos carots" the exact pass finds
    nothing, the fuzzy pass runs, and it collects two accepted matches, one
    for each token. *)
Lemma fuzzy_pass_collects_two :
  let tokens := tokenize (Str.lower "tomatos carots") in
  tokens = ["tomatos"; "carots"]
  ∧ exact_pass tokens [] = []
  ∧ fuzzy_pass (dict_keys PLANT_SYNONYMS) tokens [] = Ok ["tomato"; "carrot"]
  ∧ extract_plants_run "tomatos carots"
    = ([ExactPass; FuzzyPass], Ok ["tomato"; "carrot"])
  ∧ ¬ (∀ text names,
         FuzzyPass ∈ (extract_plants_run text).1 →
         extract_plants text = Ok names →
         (length names ≤ 1)%nat).
Proof.
  do 4 (split; [by vm_compute|]).
  intros H. specialize (H "tomatos carots" ["tomato"; "carrot"]).
  assert (2 ≤ 1)%nat as Habs; [|lia].
  apply H; [|by vm_compute].
  replace (extract_plants_run "tomatos carots").1
    with [ExactPass; FuzzyPass] by (by vm_compute).
  in_list.
Qed.

(** C7, amended.  The extractor runs its fuzzy pass exactly when the exact
    pass over all tokens found no plant and the text has at least one token;
    otherwise it returns the plants of the exact pass, or ["all"] when there
    is no token.  When the fuzzy pass runs, it asks for one close match per
    token, so that it collects at most one name per token, without
    repetition: each name collected is the plant of the one close match of
    some token. *)
Theorem fuzzy_pass_rules (text : string) :
  let tokens := tokenize (Str.lower text) in
  let exact := exact_pass tokens [] in
  (FuzzyPass ∈ (extract_plants_run text).1 ↔ exact = [] ∧ tokens ≠ [])
  ∧ (¬ (exact = [] ∧ tokens ≠ []) →
     extract_plants_run text
     = ([ExactPass], Ok (if is_empty exact then ["all"] else exact)))
  ∧ (exact = [] ∧ tokens ≠ [] →
     ∃ names,
       fuzzy_pass (dict_keys PLANT_SYNONYMS) tokens [] = Ok names
       ∧ extract_plants_run text
         = ([ExactPass; FuzzyPass],
            Ok (if is_empty names then ["all"] else names))
       ∧ (length names ≤ length tokens)%nat
       ∧ NoDup names
       ∧ ∀ name, name ∈ names →
           ∃ token key plant_code,
             token ∈ tokens
             ∧ Difflib.get_close_matches token (dict_keys PLANT_SYNONYMS)
                 cutoff = [key]
             ∧ dict_get PLANT_SYNONYMS key = Some plant_code
             ∧ dict_get plant_map name = Some plant_code).
Proof.
  intros tokens exact.
  destruct (extract_plants_run_cases text) as (found & Hf & _ & Hrun).
  unfold plants_before_fallback in Hf. fold tokens in Hf, Hrun.
  fold exact in Hf, Hrun. rewrite Hrun.
  pose proof (fuzzy_runs_iff exact tokens) as Hiff.
  destruct (fuzzy_runs exact tokens); cbn [fst].
  - pose proof (proj1 Hiff eq_refl) as [Hex Htok]. split; [|split].
    + split; [done|]. intros _. in_list.
    + intros Hn. by destruct Hn.
    + intros _. rewrite Hex in Hf. exists found. split; [done|].
      split; [done|]. split; [|split].
      * by apply (fuzzy_pass_length _ _ [] found) in Hf.
      * eapply fuzzy_pass_NoDup; [|exact Hf]. apply NoDup_nil_2.
      * intros name Hn.
        destruct (fuzzy_pass_elem _ _ _ _ _ Hf Hn) as [Hnil|H]; [|done].
        by apply elem_of_nil in Hnil.
  - injection Hf as <-. split; [|split].
    + split; [|intros H; by apply Hiff in H].
      intros Hin. apply elem_of_cons in Hin as [Hin|Hin]; [done|].
      by apply elem_of_nil in Hin.
    + done.
    + intros H. by apply Hiff in H.
Qed.

Lemma fuzzy_pass_rules_witness :
  extract_plants_run "water the basil and tomatos" = ([ExactPass], Ok ["basil"])
  ∧ extract_plants_run "please water my tomatos"
    = ([ExactPass; FuzzyPass], Ok ["tomato"]).
Proof.
  split.
  - destruct (fuzzy_pass_rules "water the basil and tomatos") as (_ & He & _).
    rewrite He; [by vm_compute|]. intros [Hex _]. by vm_compute in Hex.
  - destruct (fuzzy_pass_rules "please water my tomatos") as (_ & _ & Hf).
    destruct Hf as (names & Hn & -> & _); [split; by vm_compute|].
    assert (names = ["tomato"]) as ->; [|done].
    assert (fuzzy_pass (dict_keys PLANT_SYNONYMS)
              (tokenize (Str.lower "please water my tomatos")) []
            = Ok ["tomato"]) as Hn' by by vm_compute.
    rewrite Hn in Hn'. by injection Hn'.
Defined.

(** C8, as written, fails: "tomoto" is itself a key of the synonym table, so
    in the text "tomoto", whose only token it is, the exact pass resolves it
    to tomato and the fuzzy pass does not run. *)
Lemma tomoto_not_fuzzy :
  tokenize (Str.lower "tomoto") = ["tomoto"]
  ∧ dict_get PLANT_SYNONYMS "tomoto" = Some "To"
  ∧ resolved_by_exact "tomoto" "tomato"
  ∧ ¬ resolved_by_fuzzy "tomoto" "tomato"
  ∧ ¬ (∀ text,
         "tomoto" ∈ tokenize (Str.lower text) →
         (∀ token, token ∈ tokenize (Str.lower text) → token ≠ "tomoto" →
                   dict_get PLANT_SYNONYMS token = None) →
         resolved_by_fuzzy text "tomato" ∧ ¬ resolved_by_exact text "tomato").
Proof.
  assert (¬ resolved_by_fuzzy "tomoto" "tomato") as Hnf.
  { intros [Hruns _]. by vm_compute in Hruns. }
  split; [by vm_compute|]. split; [by vm_compute|]. split.
  { unfold resolved_by_exact.
    replace (exact_pass _ _) with ["tomato"] by (by vm_compute).
    apply list_elem_of_here. }
  split; [exact Hnf|]. intros H. apply Hnf, (H "tomoto").
  - replace (tokenize _) with ["tomoto"] by (by vm_compute).
    apply list_elem_of_here.
  - replace (tokenize _) with ["tomoto"] by (by vm_compute).
    by intros token ->%list_elem_of_singleton.
Qed.

(** C8, amended.  For any text in which "tomoto" is a token, the extractor
    resolves it to tomato by the exact lookup in the synonym table, of which
    "tomoto" is a key; the fuzzy pass does not run. *)
Theorem tomoto_resolved_exactly (text : string) :
  "tomoto" ∈ tokenize (Str.lower text) →
  dict_get PLANT_SYNONYMS "tomoto" = Some "To"
  ∧ resolved_by_exact text "tomato"
  ∧ ¬ resolved_by_fuzzy text "tomato"
  ∧ ∃ plant_names, extract_plants text = Ok plant_names
                   ∧ "tomato" ∈ plant_names
                   ∧ plant_names = exact_pass (tokenize (Str.lower text)) [].
Proof.
  intros Ht. pose proof (exact_pass_tomoto _ [] Ht) as Hex.
  assert (fuzzy_runs (exact_pass (tokenize (Str.lower text)) [])
                     (tokenize (Str.lower text)) = false) as Hruns.
  { destruct (fuzzy_runs _ _) eqn:Hr; [|done].
    apply fuzzy_runs_iff in Hr as [Hr _]. rewrite Hr in Hex.
    by apply elem_of_nil in Hex. }
  split; [done|]. split; [exact Hex|]. split.
  - intros [Hr _]. congruence.
  - destruct (extract_plants_cases text) as (found & Hf & _ & He).
    unfold plants_before_fallback in Hf. rewrite Hruns in Hf.
    inversion Hf; subst found. eexists. split; [exact He|].
    destruct (exact_pass _ _) eqn:Hx; [by apply elem_of_nil in Hex|].
    by split.
Qed.

Lemma tomoto_resolved_exactly_witness :
  resolved_by_exact "Turn on the TOMOTO" "tomato"
  ∧ ¬ resolved_by_fuzzy "Turn on the TOMOTO" "tomato".
Proof.
  destruct (tomoto_resolved_exactly "Turn on the TOMOTO") as (_ & He & Hf & _).
  - replace (tokenize _) with ["turn"; "on"; "the"; "tomoto"] by (by vm_compute).
    in_list.
  - split; [exact He | exact Hf].
Defined.

(** ** The matcher decides the match relation *)

Lemma append_cons c s t : String c s ++ t = String c (s ++ t).
Proof. reflexivity. Qed.

Lemma append_assoc s t u : (s ++ t) ++ u = s ++ t ++ u.
Proof. induction s as [|c s IH]; [done|]. by rewrite !append_cons, IH. Qed.

Lemma append_length s t :
  String.length (s ++ t) = (String.length s + String.length t)%nat.
Proof.
  induction s as [|c s IH]; [done|]. rewrite append_cons. simpl. by rewrite IH.
Qed.

Lemma last_char_app p s t : last_char p (s ++ t) = last_char (last_char p s) t.
Proof.
  revert p. induction s as [|c s IH]; intros p; [done|].
  rewrite append_cons. simpl. apply IH.
Qed.

Lemma last_char_nonempty p q s : s ≠ "" → last_char p s = last_char q s.
Proof. by destruct s. Qed.

Lemma cursor_eq c1 c2 : before c1 = before c2 → rest c1 = rest c2 → c1 = c2.
Proof. destruct c1, c2. simpl. by intros -> ->. Qed.

Lemma reads_nil cur : reads cur "" cur.
Proof. by split. Qed.

Lemma reads_nil_inv cur cur' : reads cur "" cur' → cur' = cur.
Proof. intros [Hr Hb]. by apply cursor_eq. Qed.

Lemma reads_app c1 c2 c3 w1 w2 :
  reads c1 w1 c2 → reads c2 w2 c3 → reads c1 (w1 ++ w2) c3.
Proof.
  intros [Hr1 Hb1] [Hr2 Hb2]. split.
  - by rewrite Hr1, Hr2, append_assoc.
  - by rewrite Hb2, Hb1, last_char_app.
Qed.

Lemma reads_char p c s : reads (Cursor p (String c s)) (String c "") (Cursor (Some c) s).
Proof. by split. Qed.

Lemma reads_cons_inv cur c w cur' :
  reads cur (String c w) cur' →
  ∃ s, cur = Cursor (before cur) (String c s)
       ∧ reads (Cursor (Some c) s) w cur'.
Proof.
  intros [Hr Hb]. destruct cur as [p s0]. simpl in *. subst s0.
  eexists. split; [reflexivity|]. by split.
Qed.

Lemma reads_length c1 w c2 :
  reads c1 w c2 →
  String.length (rest c1) = (String.length w + String.length (rest c2))%nat.
Proof. intros [-> _]. apply append_length. Qed.

(** What a match reads. *)
Lemma matches_reads r c1 c2 : matches r c1 c2 → ∃ w, reads c1 w c2.
Proof.
  induction 1 as [cur|c p s|f c p s Hf|cur Hb|r1 r2 c1 c2 c3 _ [w1 H1] _ [w2 H2]
                 |r1 r2 c1 c2 _ IH|r1 r2 c1 c2 _ IH|r cur
                 |r c1 c2 c3 _ [w1 H1] _ [w2 H2]|r c1 c2 _ IH];
    eauto using reads_nil, reads_char, reads_app.
Qed.

Lemma matches_shorter r c1 c2 :
  matches r c1 c2 →
  (String.length (rest c2) < String.length (rest c1))%nat ∨ c2 = c1.
Proof.
  intros [w Hw]%matches_reads. destruct w as [|c w].
  - right. by apply reads_nil_inv.
  - left. apply reads_length in Hw. simpl in Hw. lia.
Qed.

Section Correctness.
Context {R : Type}.
Implicit Types k : @cont R.

Lemma star_loop_sound step k n cur cap x r :
  (∀ cur cap k x, step cur cap k = Some x →
                  ∃ cur' cap', matches r cur cur' ∧ k cur' cap' = Some x) →
  star_loop step k n cur cap = Some x →
  ∃ cur' cap', matches (Star r) cur cur' ∧ k cur' cap' = Some x.
Proof.
  intros Hstep. revert cur cap. induction n as [|n IH]; intros cur cap; simpl.
  - intros Hk. exists cur, cap. split; [constructor | done].
  - destruct (step cur cap _) as [y|] eqn:Hs.
    + intros [= ->]. apply Hstep in Hs as (c1 & cap1 & Hm & Hk).
      destruct (_ <? _)%nat; [|done].
      apply IH in Hk as (c2 & cap2 & Hm2 & Hk).
      exists c2, cap2. split; [by econstructor | done].
    + intros Hk. exists cur, cap. split; [constructor | done].
Qed.

Lemma rmatch_sound r cur cap k x :
  rmatch r cur cap k = Some x →
  ∃ cur' cap', matches r cur cur' ∧ k cur' cap' = Some x.
Proof.
  revert cur cap k x.
  induction r as [|c|f| |r1 IH1 r2 IH2|r1 IH1 r2 IH2|r IH|r IH];
    intros cur cap k x; simpl.
  - intros Hk. exists cur, cap. split; [constructor | done].
  - destruct cur as [p [|c' s]]; simpl; [done|].
    destruct (Ascii.eqb_spec c c') as [<-|]; [|done].
    intros Hk. eexists _, cap. split; [constructor | done].
  - destruct cur as [p [|c' s]]; simpl; [done|].
    destruct (f c') eqn:Hf; [|done].
    intros Hk. eexists _, cap. split; [by constructor | done].
  - destruct (at_boundary cur) eqn:Hb; [|done].
    intros Hk. exists cur, cap. split; [by constructor | done].
  - intros (c1 & cap1 & Hm1 & H2)%IH1. apply IH2 in H2 as (c2 & cap2 & Hm2 & Hk).
    exists c2, cap2. split; [by econstructor | done].
  - destruct (rmatch r1 cur cap k) as [y|] eqn:H1.
    + intros [= ->]. apply IH1 in H1 as (c1 & cap1 & Hm & Hk).
      exists c1, cap1. split; [by apply matches_alt_l | done].
    + intros (c1 & cap1 & Hm & Hk)%IH2.
      exists c1, cap1. split; [by apply matches_alt_r | done].
  - apply star_loop_sound. apply IH.
  - intros (c1 & cap1 & Hm & Hk)%IH. eexists c1, _.
    split; [by constructor | exact Hk].
Qed.

Lemma star_loop_complete step k r c1 c3 :
  (∀ cur cur' cap k, matches r cur cur' → accepts k cur' →
                      is_Some (step cur cap k)) →
  matches (Star r) c1 c3 → accepts k c3 →
  ∀ n cap, (String.length (rest c1) ≤ n)%nat →
           is_Some (star_loop step k n c1 cap).
Proof.
  intros Hstep Hm Hk. remember (Star r) as sr eqn:Hsr.
  induction Hm as [| | | | | | |r' cur|r' c1 c2 c3 Hm1 _ Hm2 IH2|];
    try discriminate; injection Hsr as ->.
  - intros [|n] cap _; simpl; [apply Hk|].
    destruct (step cur cap _); [by eexists | apply Hk].
  - intros n cap Hn. destruct (matches_shorter _ _ _ Hm1) as [Hlt| ->];
      [|by apply IH2].
    destruct n as [|n]; [lia|]. simpl.
    destruct (step c1 cap _) as [y|] eqn:Hs; [by eexists|].
    exfalso. assert (is_Some (step c1 cap (λ cur' cap',
      if (String.length (rest cur') <? String.length (rest c1))%nat
      then star_loop step k n cur' cap' else None))) as [y Hy];
      [|congruence].
    apply (Hstep _ c2); [done|]. intros cap'.
    apply Nat.ltb_lt in Hlt as Hlt'. rewrite Hlt'.
    apply IH2; [done..|lia].
Qed.

Lemma rmatch_complete r cur cur' cap k :
  matches r cur cur' → accepts k cur' → is_Some (rmatch r cur cap k).
Proof.
  revert cur cur' cap k.
  induction r as [|c|f| |r1 IH1 r2 IH2|r1 IH1 r2 IH2|r IH|r IH];
    intros cur cur' cap k Hm Hk; simpl.
  - inversion Hm; subst. apply Hk.
  - inversion Hm; subst. simpl. rewrite Ascii.eqb_refl. apply Hk.
  - inversion Hm as [| |? ? ? ? Hf| | | | | | |]; subst. simpl. rewrite Hf.
    apply Hk.
  - inversion Hm as [| | |? Hb| | | | | |]; subst. rewrite Hb. apply Hk.
  - inversion Hm as [| | | |? ? ? c2 ? Hm1 Hm2| | | | |]; subst.
    apply (IH1 _ c2); [done|]. intros cap'. by apply (IH2 _ cur').
  - destruct (rmatch r1 cur cap k) as [y|] eqn:H1; [by eexists|].
    inversion Hm as [| | | | |? ? ? ? Hm1|? ? ? ? Hm2| | |]; subst.
    + destruct (IH1 _ _ cap k Hm1 Hk) as [y Hy]. congruence.
    + by apply (IH2 _ cur').
  - eapply star_loop_complete; [|exact Hm|exact Hk|done].
    intros c c' cap0 k0. apply IH.
  - inversion Hm; subst. apply (IH _ cur'); [done|]. intros cap'. apply Hk.
Qed.

End Correctness.

Lemma match_at_matches r cur :
  is_Some (match_at r cur) ↔ ∃ cur', matches r cur cur'.
Proof.
  unfold match_at. split.
  - intros [m Hm]. apply rmatch_sound in Hm as (cur' & _ & Hm & _). eauto.
  - intros [cur' Hm]. apply (rmatch_complete r cur cur'); [done|].
    intros cap. by eexists.
Qed.

Lemma search_from_found r p s :
  found (search_from r p s) = true
  ↔ ∃ pre post cur', s = pre ++ post
                     ∧ matches r (Cursor (last_char p pre) post) cur'.
Proof.
  revert p. induction s as [|c s IH]; intros p; simpl.
  - destruct (match_at r (Cursor p "")) as [m|] eqn:Hm; simpl.
    + split; [|done]. intros _.
      destruct (proj1 (match_at_matches r _) (mk_is_Some _ _ Hm)) as [cur' H].
      by exists "", "", cur'.
    + split; [done|]. intros (pre & post & cur' & Heq & H).
      destruct pre; [|done]. destruct post; [|done]. simpl in H.
      destruct (proj2 (match_at_matches r _) (ex_intro _ _ H)) as [m' Hm'].
      congruence.
  - destruct (match_at r (Cursor p (String c s))) as [m|] eqn:Hm; simpl.
    + split; [|done]. intros _.
      destruct (proj1 (match_at_matches r _) (mk_is_Some _ _ Hm)) as [cur' H].
      by exists "", (String c s), cur'.
    + rewrite IH. split.
      * intros (pre & post & cur' & -> & H).
        by exists (String c pre), post, cur'.
      * intros (pre & post & cur' & Heq & H). destruct pre as [|c' pre].
        -- change (String c s = post) in Heq. subst post. simpl in H.
           destruct (proj2 (match_at_matches r _) (ex_intro _ _ H)) as [m' Hm'].
           congruence.
        -- rewrite append_cons in Heq. injection Heq as -> ->.
           by exists pre, post, cur'.
Qed.

Lemma search_found r s :
  found (search r s) = true
  ↔ ∃ pre post cur', s = pre ++ post
                     ∧ matches r (Cursor (last_char None pre) post) cur'.
Proof. apply search_from_found. Qed.

Lemma take_app w s : Str.take (String.length w) (w ++ s) = w.
Proof.
  induction w as [|c w IH]; [by destruct s|].
  rewrite append_cons. simpl. by rewrite IH.
Qed.

Lemma consumed_reads c w c' : reads c w c' → consumed c c' = w.
Proof.
  intros Hr. unfold consumed. rewrite (reads_length _ _ _ Hr).
  destruct Hr as [-> _].
  replace (String.length w + String.length (rest c') - String.length (rest c'))%nat
    with (String.length w) by lia.
  apply take_app.
Qed.

Lemma match_at_some r cur m :
  match_at r cur = Some m →
  ∃ w, matches r cur (m_end m) ∧ reads cur w (m_end m) ∧ group0 m = w.
Proof.
  unfold match_at. intros (cur' & cap & Hm & Hk)%rmatch_sound.
  injection Hk as <-. simpl. destruct (matches_reads _ _ _ Hm) as [w Hw].
  exists w. split; [done|]. split; [done|]. by apply consumed_reads.
Qed.

(** A search succeeds with the match at the first cursor that has one. *)
Lemma search_from_at r p s m :
  search_from r p s = Some m →
  ∃ pre c1, reads (Cursor p s) pre c1 ∧ match_at r c1 = Some m.
Proof.
  revert p. induction s as [|c s IH]; intros p; simpl.
  - destruct (match_at r (Cursor p "")) as [m'|] eqn:Hm; [|done].
    intros [= ->]. exists "", (Cursor p ""). split; [apply reads_nil | done].
  - destruct (match_at r (Cursor p (String c s))) as [m'|] eqn:Hm.
    + intros [= ->]. exists "", (Cursor p (String c s)).
      split; [apply reads_nil | done].
    + intros (pre & c1 & Hpre & Hat)%IH.
      exists (String c pre), c1. split; [|done].
      eapply (reads_app _ _ _ (String c "") pre); [apply reads_char | done].
Qed.

Lemma search_from_some r p s m :
  search_from r p s = Some m →
  ∃ pre w c1,
    reads (Cursor p s) pre c1 ∧ matches r c1 (m_end m)
    ∧ reads c1 w (m_end m) ∧ group0 m = w.
Proof.
  intros (pre & c1 & Hpre & (w & ? & ? & ?)%match_at_some)%search_from_at.
  by exists pre, w, c1.
Qed.

Lemma rmatch_cat {R : Type} r1 r2 cur cap (k : @cont R) :
  rmatch (r1 · r2) cur cap k
  = rmatch r1 cur cap (λ cur' cap', rmatch r2 cur' cap' k).
Proof. reflexivity. Qed.

Lemma rmatch_grp {R : Type} r cur cap (k : @cont R) :
  rmatch (Grp r) cur cap k
  = rmatch r cur cap (λ cur' _, k cur' (Some (consumed cur cur'))).
Proof. reflexivity. Qed.

(** ** What the patterns of the classifier find *)

Lemma matches_cat_iff r1 r2 c1 c3 :
  matches (r1 · r2) c1 c3 ↔ ∃ c2, matches r1 c1 c2 ∧ matches r2 c2 c3.
Proof.
  split.
  - inversion 1; subst. eauto.
  - intros (c2 & H1 & H2). by econstructor.
Qed.

Lemma matches_bnd_iff c c' :
  matches Bnd c c' ↔ c' = c ∧ at_boundary c = true.
Proof.
  split.
  - by inversion 1; subst.
  - intros [-> Hb]. by constructor.
Qed.

Lemma matches_cls_iff f c c' :
  matches (Cls f) c c' ↔ ∃ ch, f ch = true ∧ reads c (String ch "") c'.
Proof.
  split.
  - inversion 1 as [| |? ch p s Hf| | | | | | |]; subst.
    exists ch. split; [done|]. apply reads_char.
  - intros (ch & Hf & Hr). apply reads_cons_inv in Hr as (s & -> & Hr).
    apply reads_nil_inv in Hr as ->. by constructor.
Qed.

Lemma matches_word_iff w c c' : matches (Word w) c c' ↔ reads c w c'.
Proof.
  revert c. induction w as [|ch w IH]; intros c; simpl.
  - split.
    + inversion 1; subst. apply reads_nil.
    + intros ->%reads_nil_inv. constructor.
  - rewrite matches_cat_iff. split.
    + intros (c2 & H1 & H2). inversion H1; subst. apply IH in H2.
      eapply (reads_app _ _ _ (String ch "") w); [apply reads_char | done].
    + intros (s & -> & Hr)%reads_cons_inv. eexists. split; [constructor|].
      by apply IH.
Qed.

Lemma matches_star_cls_iff f c c' :
  matches (Star (Cls f)) c c' ↔ ∃ w, all_chars f w = true ∧ reads c w c'.
Proof.
  split.
  - intros Hm. remember (Star (Cls f)) as sr eqn:Hsr.
    induction Hm as [| | | | | | |r cur|r c1 c2 c3 Hm1 _ Hm2 IH|];
      try discriminate; injection Hsr as ->.
    + exists "". split; [done | apply reads_nil].
    + destruct (IH eq_refl) as (w & Hw & Hr).
      apply matches_cls_iff in Hm1 as (ch & Hf & Hr1).
      exists (String ch w). split; [simpl; by rewrite Hf|].
      eapply (reads_app _ _ _ (String ch "") w); eassumption.
  - intros (w & Hw & Hr). revert c Hr.
    induction w as [|ch w IH]; intros c Hr.
    + apply reads_nil_inv in Hr as ->. constructor.
    + simpl in Hw. apply andb_true_iff in Hw as [Hf Hw].
      apply reads_cons_inv in Hr as (s & -> & Hr).
      eapply matches_star_cons; [by constructor | by apply IH].
Qed.

Lemma matches_plus_cls_iff f c c' :
  matches (Plus (Cls f)) c c'
  ↔ ∃ w, w ≠ "" ∧ all_chars f w = true ∧ reads c w c'.
Proof.
  unfold Plus. rewrite matches_cat_iff. split.
  - intros (c2 & (ch & Hf & H1)%matches_cls_iff
               & (w & Hw & H2)%matches_star_cls_iff).
    exists (String ch w). split; [done|]. split; [simpl; by rewrite Hf|].
    eapply (reads_app _ _ _ (String ch "") w); eassumption.
  - intros ([|ch w] & Hne & Hw & Hr); [done|].
    simpl in Hw. apply andb_true_iff in Hw as [Hf Hw].
    apply reads_cons_inv in Hr as (s & -> & Hr). eexists. split.
    + by constructor.
    + apply matches_star_cls_iff. by exists w.
Qed.

Lemma first_char_app w s : w ≠ "" → first_char (w ++ s) = first_char w.
Proof. by destruct w. Qed.

Lemma word_start_nonempty w : word_start w = true → w ≠ "".
Proof. by destruct w. Qed.

Lemma reads_boundary_start c w c' :
  reads c w c' → word_start w = true →
  at_boundary c = negb (word_opt (before c)).
Proof.
  intros [Hr _] Hw. unfold at_boundary, next. rewrite Hr.
  destruct w as [|ch w]; [done|]. rewrite append_cons.
  change (word_opt (Some ch)) with (word_start (String ch w)). rewrite Hw.
  apply xorb_true_r.
Qed.

Lemma reads_boundary_end c w c' :
  reads c w c' → word_end w = true →
  at_boundary c' = negb (word_start (rest c')).
Proof.
  intros [_ Hb] Hw. unfold at_boundary. rewrite Hb.
  destruct w as [|ch w]; [done|].
  rewrite (last_char_nonempty _ None) by done.
  unfold word_end in Hw. rewrite Hw. unfold word_start, next, first_char.
  by destruct (rest c').
Qed.

Lemma reads_app_inv c w1 w2 c' :
  reads c (w1 ++ w2) c' → ∃ c2, reads c w1 c2 ∧ reads c2 w2 c'.
Proof.
  intros [Hr Hb]. exists (Cursor (last_char (before c) w1) (w2 ++ rest c')).
  split; split; simpl; try done.
  - by rewrite Hr, append_assoc.
  - by rewrite Hb, last_char_app.
Qed.

(** The matches of a pattern that is enclosed in two [\b] and reads words
    that begin and end with a word character. *)
Lemma search_bounded r (L : string → Prop) s :
  (∀ c c', matches r c c'
           ↔ at_boundary c = true ∧ at_boundary c' = true
             ∧ ∃ w, L w ∧ reads c w c') →
  (∀ w, L w → word_start w = true ∧ word_end w = true) →
  found (search r s) = true ↔ occurs_bounded L s.
Proof.
  intros Hr HL. rewrite search_found. unfold occurs_bounded. split.
  - intros (pre & post & c' & -> & Hm).
    apply Hr in Hm as (Hb1 & Hb2 & w & Hw & Hrd).
    destruct (HL w Hw) as [Hs He].
    rewrite (reads_boundary_start _ _ _ Hrd Hs) in Hb1.
    rewrite (reads_boundary_end _ _ _ Hrd He) in Hb2.
    exists pre, w, (rest c'). destruct Hrd as [Hrd _]. simpl in Hrd, Hb1.
    split; [by rewrite Hrd|]. split; [done|].
    split; [by apply negb_true_iff in Hb1 | by apply negb_true_iff in Hb2].
  - intros (pre & w & post & -> & Hw & Hpre & Hpost).
    destruct (HL w Hw) as [Hs He].
    set (c1 := Cursor (last_char None pre) (w ++ post)).
    set (c2 := Cursor (last_char (last_char None pre) w) post).
    assert (reads c1 w c2) as Hrd by by split.
    exists pre, (w ++ post), c2. split; [done|]. fold c1.
    apply Hr. split; [|split; [|eauto]].
    + rewrite (reads_boundary_start _ _ _ Hrd Hs). simpl.
      by apply negb_true_iff.
    + rewrite (reads_boundary_end _ _ _ Hrd He). simpl.
      by apply negb_true_iff.
Qed.

Lemma matches_keyword keyword c c' :
  matches (re_keyword keyword) c c'
  ↔ at_boundary c = true ∧ at_boundary c' = true
    ∧ ∃ w, w = keyword ∧ reads c w c'.
Proof.
  unfold re_keyword. rewrite matches_cat_iff. split.
  - intros (c1 & [-> Hb1]%matches_bnd_iff & Hm).
    apply matches_cat_iff in Hm as (c2 & Hm%matches_word_iff
                                       & [-> Hb2]%matches_bnd_iff).
    eauto.
  - intros (Hb1 & Hb2 & w & -> & Hrd). exists c. split; [by constructor|].
    apply matches_cat_iff. exists c'.
    split; [by apply matches_word_iff | by constructor].
Qed.

Lemma matches_spaced first second c c' :
  matches (Bnd · Word first · Plus ws · Word second · Bnd) c c'
  ↔ at_boundary c = true ∧ at_boundary c' = true
    ∧ ∃ w, spaced first second w ∧ reads c w c'.
Proof.
  rewrite matches_cat_iff. split.
  - intros (c0 & [-> Hb1]%matches_bnd_iff & Hm).
    apply matches_cat_iff in Hm as (c1 & H1%matches_word_iff & Hm).
    apply matches_cat_iff in Hm as (c2 & Hgap%matches_plus_cls_iff & Hm).
    apply matches_cat_iff in Hm as (c3 & H2%matches_word_iff
                                       & [-> Hb2]%matches_bnd_iff).
    destruct Hgap as (gap & Hne & Hsp & Hg).
    split; [done|]. split; [done|]. exists (first ++ gap ++ second).
    split; [by exists gap|]. eauto using reads_app.
  - intros (Hb1 & Hb2 & w & (gap & -> & Hne & Hsp) & Hrd).
    apply reads_app_inv in Hrd as (c1 & H1 & Hrd).
    apply reads_app_inv in Hrd as (c2 & Hg & H2).
    exists c. split; [by constructor|].
    apply matches_cat_iff. exists c1. split; [by apply matches_word_iff|].
    apply matches_cat_iff. exists c2.
    split; [apply matches_plus_cls_iff; by exists gap|].
    apply matches_cat_iff. exists c'.
    split; [by apply matches_word_iff | by constructor].
Qed.

Lemma word_start_app mid s :
  word_start s = true →
  word_start (mid ++ s) = false ↔ word_start mid = false ∧ mid ≠ "".
Proof.
  intros Hs. destruct mid as [|ch mid].
  - change ("" ++ s) with s. rewrite Hs. split; [done | by intros [_ ?]].
  - rewrite append_cons. unfold word_start. simpl. split; [done | by intros [? _]].
Qed.

Lemma matches_water_on c c' :
  matches re_water_on c c'
  ↔ at_boundary c = true ∧ at_boundary c' = true
    ∧ ∃ w, water_to_on w ∧ reads c w c'.
Proof.
  unfold re_water_on. rewrite matches_cat_iff. split.
  - intros (c0 & [-> Hb0]%matches_bnd_iff & Hm).
    apply matches_cat_iff in Hm as (c1 & H1%matches_word_iff & Hm).
    apply matches_cat_iff in Hm as (c1' & [-> Hb1]%matches_bnd_iff & Hm).
    apply matches_cat_iff in Hm as (c2 & Hmid%matches_star_cls_iff & Hm).
    apply matches_cat_iff in Hm as (c2' & [-> Hb2]%matches_bnd_iff & Hm).
    apply matches_cat_iff in Hm as (c3 & H2%matches_word_iff
                                       & [-> Hb3]%matches_bnd_iff).
    destruct Hmid as (mid & Hnl & Hmid).
    split; [done|]. split; [done|]. exists ("water" ++ mid ++ "on").
    split; [|by eauto using reads_app].
    rewrite (reads_boundary_end _ _ _ H1 eq_refl) in Hb1.
    rewrite (reads_boundary_start _ _ _ H2 eq_refl) in Hb2.
    apply negb_true_iff in Hb1, Hb2.
    destruct Hmid as [Hr Hbf]. destruct H2 as [Hr2 _].
    rewrite Hr, Hr2 in Hb1.
    apply (word_start_app mid ("on" ++ rest c3) eq_refl) in Hb1 as [Hs Hne].
    exists mid. repeat split; try done.
    unfold word_end. by rewrite (last_char_nonempty _ (before c1)), <- Hbf.
  - intros (Hb0 & Hb3 & w & (mid & -> & Hnl & Hs & He & Hne) & Hrd).
    apply reads_app_inv in Hrd as (c1 & H1 & Hrd).
    apply reads_app_inv in Hrd as (c2 & Hmid & H2).
    exists c. split; [by constructor|].
    apply matches_cat_iff. exists c1. split; [by apply matches_word_iff|].
    apply matches_cat_iff. exists c1. split.
    { constructor. rewrite (reads_boundary_end _ _ _ H1 eq_refl).
      apply negb_true_iff. destruct Hmid as [-> _]. destruct H2 as [-> _].
      by apply (word_start_app mid ("on" ++ rest c') eq_refl). }
    apply matches_cat_iff. exists c2.
    split; [apply matches_star_cls_iff; by exists mid|].
    apply matches_cat_iff. exists c2. split.
    { constructor. rewrite (reads_boundary_start _ _ _ H2 eq_refl).
      apply negb_true_iff. destruct Hmid as [_ ->].
      by rewrite (last_char_nonempty _ None). }
    apply matches_cat_iff. exists c'.
    split; [by apply matches_word_iff | by constructor].
Qed.

(** What the searches of the classifier find. *)
Lemma search_keyword keyword s :
  word_start keyword = true → word_end keyword = true →
  found (search (re_keyword keyword) s) = true ↔ whole_word keyword s.
Proof.
  intros Hs He. apply search_bounded; [apply matches_keyword|].
  by intros w ->.
Qed.

Lemma word_end_app_r (w t : string) : t ≠ "" → word_end (w ++ t) = word_end t.
Proof.
  intros Ht. unfold word_end. rewrite last_char_app.
  f_equal. by apply last_char_nonempty.
Qed.

Lemma search_spaced first second s :
  word_start first = true → word_end second = true →
  found (search (Bnd · Word first · Plus ws · Word second · Bnd) s) = true
  ↔ phrase first second s.
Proof.
  intros Hs He. apply search_bounded; [apply matches_spaced|].
  intros w (gap & -> & Hne & _). split.
  - unfold word_start. rewrite first_char_app; [done|].
    by apply word_start_nonempty.
  - assert (second ≠ "") as Hsec by by destruct second.
    rewrite (word_end_app_r first), (word_end_app_r gap); [done..|].
    by destruct gap.
Qed.

Lemma search_water_on s :
  found (search re_water_on s) = true ↔ water_then_on s.
Proof.
  apply search_bounded; [apply matches_water_on|].
  intros w (mid & -> & _). split; [done|].
  rewrite (word_end_app_r "water"), (word_end_app_r mid); [done..|].
  by destruct mid.
Qed.

(** ** The rules of the intent classifier *)

Lemma winner_rules (on_count off_count status_count : Z) :
  (winner on_count off_count status_count = TurnOnWater
   ↔ off_count < on_count ∧ status_count < on_count)
  ∧ (winner on_count off_count status_count = TurnOffWater
     ↔ on_count < off_count ∧ status_count < off_count)
  ∧ (winner on_count off_count status_count = GetStatus
     ↔ on_count < status_count ∧ off_count < status_count)
  ∧ (winner on_count off_count status_count = Unknown
     ↔ ¬ (off_count < on_count ∧ status_count < on_count)
       ∧ ¬ (on_count < off_count ∧ status_count < off_count)
       ∧ ¬ (on_count < status_count ∧ off_count < status_count)).
Proof.
  unfold winner.
  destruct (Z.ltb_spec off_count on_count), (Z.ltb_spec status_count on_count),
    (Z.ltb_spec on_count off_count), (Z.ltb_spec status_count off_count),
    (Z.ltb_spec on_count status_count), (Z.ltb_spec off_count status_count);
    simpl; repeat split; intros; try done; try lia.
Qed.

Lemma keywords_are_words keyword :
  keyword ∈ classifier_keywords →
  word_start keyword = true ∧ word_end keyword = true.
Proof.
  intros Hk. cbn in Hk. each_member Hk ltac:(by vm_compute).
Qed.

Lemma present_whole_words keywords s keyword :
  keywords ⊆ classifier_keywords →
  keyword ∈ present keywords s ↔ keyword ∈ keywords ∧ whole_word keyword s.
Proof.
  intros Hsub. unfold present. rewrite list_elem_of_filter. split.
  - intros [Hf Hk]. split; [done|].
    destruct (keywords_are_words keyword (Hsub _ Hk)) as [Hs He].
    by apply search_keyword.
  - intros [Hk Hw]. split; [|done].
    destruct (keywords_are_words keyword (Hsub _ Hk)) as [Hs He].
    by apply search_keyword.
Qed.

Lemma classify_intent_unfold text :
  classify_intent text
  = let text_lower := Str.lower text in
    if found (search re_turn_off text_lower) || found (search re_turn_of text_lower)
    then TurnOffWater
    else if found (search re_turn_on text_lower)
            || found (search re_water_on text_lower)
    then TurnOnWater
    else winner (Z.of_nat (length (present on_keywords text_lower)))
                (Z.of_nat (length (present off_keywords text_lower)))
                (Z.of_nat (length (present status_keywords text_lower))).
Proof. reflexivity. Qed.

Lemma turn_off_rule s :
  found (search re_turn_off s) || found (search re_turn_of s) = true
  ↔ phrase "turn" "off" s ∨ phrase "turn" "of" s.
Proof.
  rewrite orb_true_iff. unfold re_turn_off, re_turn_of.
  by rewrite !search_spaced.
Qed.

Lemma turn_on_rule s :
  found (search re_turn_on s) || found (search re_water_on s) = true
  ↔ phrase "turn" "on" s ∨ water_then_on s.
Proof.
  rewrite orb_true_iff. unfold re_turn_on.
  by rewrite search_spaced, search_water_on.
Qed.

Lemma present_rules keywords keyword s :
  keywords ∈ [on_keywords; off_keywords; status_keywords] →
  (keyword ∈ present keywords s ↔ keyword ∈ keywords ∧ whole_word keyword s)
  ∧ NoDup (present keywords s)
  ∧ keyword_count keywords s = Z.of_nat (length (present keywords s)).
Proof.
  intros Hk. split; [|split; [|done]].
  - apply present_whole_words. unfold classifier_keywords. intros k Hkk.
    cbn in Hk.
    each_member Hk ltac:(repeat first
      [done | apply elem_of_app; (left; done) || right]).
  - apply NoDup_filter. cbn in Hk. each_member Hk ltac:(compute_done).
Qed.

(** C5, as written, fails on the scoring: in "start start stop" the on
    keyword "start" occurs twice and the off keyword "stop" once, so that
    counting occurrences makes TurnOnWater win; the classifier counts each
    keyword once however often it occurs, finds a tie and returns Unknown.
    It also fails where a line break separates "water" from "on": there the
    word "water" is followed later by the word "on", yet the second rule
    does not fire. *)
Lemma classify_counts_keywords_once :
  occurrence_count on_keywords "start start stop" = 2
  ∧ occurrence_count off_keywords "start start stop" = 1
  ∧ occurrence_count status_keywords "start start stop" = 0
  ∧ classify_by_occurrences "start start stop" = TurnOnWater
  ∧ classify_intent "start start stop" = Unknown
  ∧ ¬ (∀ text, classify_intent text = classify_by_occurrences text)
  ∧ water_later_on ("water" ++ String "010" "on off")
  ∧ classify_intent ("water" ++ String "010" "on off") = Unknown.
Proof.
  do 5 (split; [by vm_compute|]). split; [|split; [|by vm_compute]].
  - intros H. specialize (H "start start stop"). by vm_compute in H.
  - exists "", (String "010" ""), " off". by vm_compute.
Qed.

(** C5, amended.  [classify_intent] applies its rules in priority order to
    the lower-cased text.  (1) If it holds, between word boundaries, "turn",
    white space and "off" (or "of"), the intent is TurnOffWater.  (2)
    Otherwise, if it holds in the same way "turn", white space and "on", or
    the word "water" followed later on the same line by the word "on", the
    intent is TurnOnWater.  (3) Otherwise each keyword set is scored by the
    number of its keywords that occur as a whole word, a keyword that occurs
    several times counting once; the intent whose score strictly exceeds
    both others wins, and a tie for the highest score, all-zero included,
    gives Unknown. *)
Theorem classify_intent_rules (text : string) :
  let s := Str.lower text in
  let on_count := Z.of_nat (length (present on_keywords s)) in
  let off_count := Z.of_nat (length (present off_keywords s)) in
  let status_count := Z.of_nat (length (present status_keywords s)) in
  (phrase "turn" "off" s ∨ phrase "turn" "of" s →
   classify_intent text = TurnOffWater)
  ∧ (¬ (phrase "turn" "off" s ∨ phrase "turn" "of" s) →
     phrase "turn" "on" s ∨ water_then_on s →
     classify_intent text = TurnOnWater)
  ∧ (¬ (phrase "turn" "off" s ∨ phrase "turn" "of" s) →
     ¬ (phrase "turn" "on" s ∨ water_then_on s) →
     (off_count < on_count ∧ status_count < on_count →
      classify_intent text = TurnOnWater)
     ∧ (on_count < off_count ∧ status_count < off_count →
        classify_intent text = TurnOffWater)
     ∧ (on_count < status_count ∧ off_count < status_count →
        classify_intent text = GetStatus)
     ∧ (¬ (off_count < on_count ∧ status_count < on_count) →
        ¬ (on_count < off_count ∧ status_count < off_count) →
        ¬ (on_count < status_count ∧ off_count < status_count) →
        classify_intent text = Unknown))
  ∧ (∀ keywords keyword,
       keywords ∈ [on_keywords; off_keywords; status_keywords] →
       (keyword ∈ present keywords s
        ↔ keyword ∈ keywords ∧ whole_word keyword s)
       ∧ NoDup (present keywords s)
       ∧ keyword_count keywords s = Z.of_nat (length (present keywords s))).
Proof.
  intros s on_count off_count status_count.
  split; [|split; [|split]]; [| | |intros; by apply present_rules].
  all: rewrite classify_intent_unfold; fold s; cbv zeta;
       fold on_count off_count status_count;
       pose proof (turn_off_rule s) as Hoff;
       pose proof (turn_on_rule s) as Hon;
       pose proof (winner_rules on_count off_count status_count)
         as (Hw1 & Hw2 & Hw3 & Hw4).
  - intros H%Hoff. by rewrite H.
  - intros Hn H%Hon.
    destruct (found (search re_turn_off s) || found (search re_turn_of s));
      [by destruct Hn; apply Hoff|].
    by rewrite H.
  - intros Hn1 Hn2.
    destruct (found (search re_turn_off s) || found (search re_turn_of s));
      [by destruct Hn1; apply Hoff|].
    destruct (found (search re_turn_on s) || found (search re_water_on s));
      [by destruct Hn2; apply Hon|].
    split; [apply Hw1|]. split; [apply Hw2|]. split; [apply Hw3|].
    intros. by apply Hw4.
Qed.

Lemma classify_intent_rules_witness :
  classify_intent "Please TURN   OFF the taps" = TurnOffWater
  ∧ classify_intent "Water it, on!" = TurnOnWater
  ∧ classify_intent "check: what is the STATUS? stop" = GetStatus
  ∧ present status_keywords "check: what is the status? stop"
    = ["status"; "check"; "what is"]
  ∧ classify_intent ("turn" ++ String "160" "of") = TurnOffWater
  ∧ classify_intent (String "233" "turn of") = Unknown.
Proof.
  destruct (classify_intent_rules "Please TURN   OFF the taps")
    as (Hoff & _).
  destruct (classify_intent_rules "Water it, on!") as (_ & Hon & _).
  destruct (classify_intent_rules "check: what is the STATUS? stop")
    as (_ & _ & Hscore & _).
  destruct (classify_intent_rules ("turn" ++ String "160" "of"))
    as (Hnbsp & _).
  destruct (classify_intent_rules (String "233" "turn of"))
    as (_ & _ & Hletter & _).
  split; [|split; [|split; [|split; [|split]]]].
  - apply Hoff. left.
    exists "please ", "turn   off", " the taps". split; [by vm_compute|].
    split; [|by vm_compute]. exists "   ". by vm_compute.
  - apply Hon.
    + rewrite <- turn_off_rule. by vm_compute.
    + right. exists "", "water it, on", "!". split; [by vm_compute|].
      split; [|by vm_compute]. exists " it, ". by vm_compute.
  - apply Hscore.
    + rewrite <- turn_off_rule. by vm_compute.
    + rewrite <- turn_on_rule. by vm_compute.
    + by vm_compute.
  - reflexivity.
  - apply Hnbsp. right. exists "", ("turn" ++ String "160" "of"), "".
    split; [by vm_compute|]. split; [|by vm_compute].
    exists (String "160" ""). by vm_compute.
  - apply Hletter.
    + rewrite <- turn_off_rule. by vm_compute.
    + rewrite <- turn_on_rule. by vm_compute.
    + vm_compute. by intros [? ?].
    + vm_compute. by intros [? ?].
    + vm_compute. by intros [? ?].
Defined.

(** ** The location parser *)

Lemma in_rows_bounds idx : in_rows idx = true ↔ 0 ≤ idx < 5.
Proof.
  unfold in_rows, ROWS. rewrite andb_true_iff, Z.leb_le, Z.ltb_lt. lia.
Qed.

Lemma lower_length s : String.length (Str.lower s) = String.length s.
Proof.
  unfold Str.lower. induction s as [|c s IH]; [done|]. simpl. by rewrite IH.
Qed.

(** What group 1 of a match of the digit pattern holds. *)
Lemma match_at_bed_digits cur mo :
  match_at re_bed_digits cur = Some mo →
  ∃ gap digits,
    group1 mo = Some digits
    ∧ reads cur ("bed" ++ gap ++ digits) (m_end mo)
    ∧ gap ≠ "" ∧ all_chars Chars.is_space gap = true
    ∧ digits ≠ "" ∧ all_chars Chars.is_digit digits = true.
Proof.
  unfold match_at, re_bed_digits. rewrite rmatch_cat.
  intros (c1 & cap1 & H1%matches_word_iff & Hk)%rmatch_sound.
  rewrite rmatch_cat in Hk.
  apply rmatch_sound in Hk as (c2 & cap2 & H2%matches_plus_cls_iff & Hk).
  rewrite rmatch_grp in Hk.
  apply rmatch_sound in Hk as (c3 & cap3 & H3%matches_plus_cls_iff & Hk).
  injection Hk as <-. cbn [group1 m_end].
  destruct H2 as (gap & Hgap & Hsp & H2), H3 as (digits & Hne & Hd & H3).
  exists gap, digits. split; [f_equal; by apply consumed_reads|].
  split; [by eauto using reads_app|]. done.
Qed.

(** The bed number that the digit pattern reads is a run of digits that
    follows "bed" and white space in the text. *)
Lemma bed_digits_spec s digits :
  bed_digits s = Some digits →
  ∃ pre gap post,
    s = pre ++ "bed" ++ gap ++ digits ++ post
    ∧ gap ≠ "" ∧ all_chars Chars.is_space gap = true
    ∧ digits ≠ "" ∧ all_chars Chars.is_digit digits = true.
Proof.
  unfold bed_digits, search.
  destruct (search_from re_bed_digits None s) as [mo|] eqn:Hs; [|done].
  intros [= <-].
  apply search_from_at in Hs as (pre & c1 & [Hpre _] & Hat).
  apply match_at_bed_digits in Hat
    as (gap & digits & Hg & [Hrd _] & Hgap & Hsp & Hne & Hd).
  exists pre, gap, (rest (m_end mo)). simpl in Hpre.
  unfold group_1. rewrite Hg. simpl.
  split; [by rewrite Hpre, Hrd, !append_assoc|]. done.
Qed.

Lemma bed_digits_length s digits :
  bed_digits s = Some digits →
  Z.of_nat (String.length digits) + 4 ≤ Z.of_nat (String.length s).
Proof.
  intros (pre & gap & post & -> & Hgap & _)%bed_digits_spec.
  rewrite !append_length. destruct gap; [done|]. simpl. lia.
Qed.

(** A text on which [parse_location] raises is longer than the digits that
    [int] accepts. *)
Lemma parse_location_long text e :
  parse_location text = Raise e →
  e = ValueError ∧ 4304 < Z.of_nat (String.length text).
Proof.
  intros (-> & w & Hw & Hlen)%parse_location_raises. split; [done|].
  apply bed_digits_length in Hw. rewrite lower_length in Hw. lia.
Qed.

(** C6, as written, fails: on "bed 9 or bed two" the digit pattern matches
    (it reads bed 9, which is out of range) and the word pattern is searched
    as well and decides the result; so it is not the case that every call
    searches one pattern only. *)
Lemma parse_location_attempts_both :
  found (search re_bed_digits "bed 9 or bed two") = true
  ∧ parse_location_run "bed 9 or bed two"
    = ([DigitPattern; WordPattern], Ok (Some 1))
  ∧ ¬ (∀ text, length (parse_location_run text).1 = 1%nat).
Proof.
  split; [by vm_compute|]. split; [by vm_compute|].
  intros H. specialize (H "bed two"). by vm_compute in H.
Qed.

(** C6, amended.  [parse_location] returns a row index only when it lies
    within the 5 rows.  The digit pattern is searched first; the bed number
    it reads is the run of digits of its leftmost match.  When that number
    is within range, its row is returned and the word pattern is not
    searched, whatever it would match.  When the digit pattern does not
    match, or reads a number out of range, the word pattern is searched as
    well and decides the result.  When the bed number has more than 4300
    digits, [int] refuses it: the call raises ValueError and returns
    nothing; no text of at most 4304 characters has such a number. *)
Theorem parse_location_rules (text : string) :
  let digits := bed_digits (Str.lower text) in
  (∀ idx, parse_location text = Ok (Some idx) → 0 ≤ idx < 5)
  ∧ (∃ others, (parse_location_run text).1 = DigitPattern :: others)
  ∧ (∀ w, digits = Some w →
          (∃ pre gap post,
              Str.lower text = pre ++ "bed" ++ gap ++ w ++ post
              ∧ gap ≠ "" ∧ all_chars Chars.is_space gap = true
              ∧ w ≠ "" ∧ all_chars Chars.is_digit w = true)
          ∧ (Z.of_nat (String.length w) ≤ 4300 →
             0 ≤ Str.int_of_digits w - 1 < 5 →
             parse_location_run text
             = ([DigitPattern], Ok (Some (Str.int_of_digits w - 1))))
          ∧ (4300 < Z.of_nat (String.length w) →
             parse_location_run text = ([DigitPattern], Raise ValueError)))
  ∧ (match digits with
     | Some w => Z.of_nat (String.length w) ≤ 4300
                 ∧ ¬ 0 ≤ Str.int_of_digits w - 1 < 5
     | None => True
     end →
     parse_location_run text
     = ([DigitPattern; WordPattern], Ok (location_from_word (Str.lower text))))
  ∧ (∀ e, parse_location text = Raise e →
          e = ValueError ∧ 4304 < Z.of_nat (String.length text)).
Proof.
  intros digits.
  assert (∀ idx, location_from_word (Str.lower text) = Some idx → 0 ≤ idx < 5)
    as Hword.
  { intros idx H. by apply in_rows_bounds,
      (location_from_word_in_rows (Str.lower text)). }
  pose proof (parse_location_run_cases text) as Hrun.
  unfold digits, bed_digits in *.
  split; [|split; [|split; [|split]]].
  - intros idx Hp. by apply in_rows_bounds, (parse_location_in_rows text).
  - rewrite Hrun.
    destruct (search re_bed_digits (Str.lower text)) as [mo|]; [|by eexists].
    destruct (int_max_str_digits <? _); [by eexists|].
    destruct (in_rows _); by eexists.
  - intros w Hw. split; [by apply bed_digits_spec|].
    destruct (search re_bed_digits (Str.lower text)) as [mo|]; [|done].
    injection Hw as <-. rewrite Hrun.
    unfold int_max_str_digits.
    destruct (Z.ltb_spec 4300 (Z.of_nat (String.length (group_1 mo))));
      split; try lia; try done.
    intros _ Hin%in_rows_bounds. by rewrite Hin.
  - rewrite Hrun.
    destruct (search re_bed_digits (Str.lower text)) as [mo|]; [|done].
    simpl. unfold int_max_str_digits.
    intros [Hlen Hout].
    destruct (Z.ltb_spec 4300 (Z.of_nat (String.length (group_1 mo))));
      [lia|].
    destruct (in_rows _) eqn:Hin; [|done]. by apply in_rows_bounds in Hin.
  - apply parse_location_long.
Qed.

Lemma parse_location_rules_witness :
  parse_location "Bed 2 or bed three" = Ok (Some 1)
  ∧ parse_location_run "Bed 2 or bed three" = ([DigitPattern], Ok (Some 1))
  ∧ parse_location_run "bed 0, bed four"
    = ([DigitPattern; WordPattern], Ok (Some 3))
  ∧ parse_location_run long_bed_text = ([DigitPattern], Raise ValueError)
  ∧ parse_location_run ("bed" ++ String "160" "3")
    = ([DigitPattern], Ok (Some 2)).
Proof.
  destruct (parse_location_rules "Bed 2 or bed three") as (_ & _ & Hd & _).
  destruct (parse_location_rules "bed 0, bed four") as (_ & _ & _ & Hw & _).
  destruct (parse_location_rules long_bed_text) as (_ & _ & Hlong & _).
  destruct (parse_location_rules ("bed" ++ String "160" "3"))
    as (_ & _ & Hnbsp & _).
  assert (parse_location_run "Bed 2 or bed three"
          = ([DigitPattern], Ok (Some 1))) as Hrun.
  { destruct (Hd "2") as (_ & Hin & _); [by vm_compute|].
    apply Hin; by vm_compute. }
  split; [|split; [|split; [|split]]].
  - unfold parse_location. by rewrite Hrun.
  - exact Hrun.
  - rewrite Hw; [by vm_compute|].
    replace (bed_digits (Str.lower "bed 0, bed four")) with (Some "0")
      by (by vm_compute).
    change (Str.int_of_digits "0") with 0. simpl. lia.
  - destruct (Hlong long_bed_number) as (_ & _ & Hraise); [by vm_compute|].
    apply Hraise. by vm_compute.
  - destruct (Hnbsp "3") as (_ & Hin & _); [by vm_compute|].
    apply Hin; by vm_compute.
Defined.

(** ** The request boundary *)

Lemma dict_get_missing {V : Type} (d : dict V) (key : string) :
  key ∉ dict_keys d → dict_get d key = None.
Proof.
  unfold dict_get, dict_keys. intros Hk.
  destruct (List.find _ d) as [[k v]|] eqn:Hf; [|done].
  apply List.find_some in Hf as [Hin Heq]. simpl in Heq.
  apply String.eqb_eq in Heq. subst k. exfalso. apply Hk.
  apply list_elem_of_fmap. exists (key, v). split; [done|].
  by apply list_elem_of_In.
Qed.




(** ** The cells that a command writes *)

Lemma process_command_waters intent plant_names v bed_index g :
  waters intent → resolve_codes plant_names ≠ [] →
  ∃ reply_text,
    process_command intent plant_names v bed_index g
    = (outcome reply_text (written_level intent v) bed_index,
       watered plant_names (written_level intent v) bed_index g).
Proof.
  intros [-> | ->] Hne.
  - rewrite process_command_on by done. by eexists.
  - rewrite process_command_off by done. by eexists.
Qed.

Lemma resolve_codes_elem plant_names code :
  code ∈ resolve_codes plant_names
  ↔ ∃ name, name ∈ plant_names ∧ dict_get plant_map name = Some code
            ∧ code ≠ "".
Proof.
  unfold resolve_codes. rewrite list_elem_of_omap. split.
  - intros (name & Hn & Hc). exists name. split; [done|].
    destruct (dict_get plant_map name) as [c|]; [|done].
    destruct (String.eqb_spec c "") as [|Hne]; [done|]. by inversion Hc; subst.
  - intros (name & Hn & Hc & Hne). exists name. split; [done|].
    rewrite Hc. by destruct (String.eqb_spec code "").
Qed.

Lemma dict_get_plant_map_all name :
  dict_get plant_map name = Some "all" ↔ name = "all".
Proof.
  split; [|by intros ->].
  unfold dict_get. destruct (List.find _ plant_map) as [[k c]|] eqn:Hf; [|done].
  apply List.find_some in Hf as [Hin Heq]. simpl in Heq.
  apply String.eqb_eq in Heq. subst k. simpl. intros [= ->].
  simpl in Hin. repeat (destruct Hin as [Hin|Hin]; [by inversion Hin|]). done.
Qed.

Lemma mem_all_resolved plant_names :
  mem "all" (resolve_codes plant_names) = true ↔ "all" ∈ plant_names.
Proof.
  rewrite mem_elem, resolve_codes_elem. split.
  - intros (name & Hn & Hc%dict_get_plant_map_all & _). by subst.
  - intros Hn. exists "all". by repeat split.
Qed.

Lemma selects_spec plant_codes r i j :
  selects plant_codes r i j = true
  ↔ in_target r i
    ∧ ("all" ∈ plant_codes ∨ cell plant_matrix i j ∈ plant_codes).
Proof.
  unfold selects, in_target.
  rewrite andb_true_iff, orb_true_iff, !mem_elem.
  destruct r as [r'|]; [by rewrite bool_decide_eq_true|]. tauto.
Qed.

(** X1.  When "all" is among the plant names, a watering command whose
    level fits a cell writes it to every cell of the rows that the bed index
    addresses, whatever other names were given, and leaves the cells of the
    other rows as they were. *)
Theorem all_overrides_names intent plant_names v bed_index g r :
  "all" ∈ plant_names → waters intent → target bed_index = Some r →
  - 2 ^ 63 ≤ written_level intent v < 2 ^ 63 →
  let after := (process_command intent plant_names v bed_index g).2 in
  ∀ i j,
    (in_target r i → cell after i j = written_level intent v)
    ∧ (¬ in_target r i → cell after i j = cell g i j).
Proof.
  intros Hall Hw Hr Hv%int64_bounds after i j. subst after.
  assert (resolve_codes plant_names ≠ []) as Hne.
  { apply mem_all_resolved, mem_elem in Hall. by intros Heq; rewrite Heq in Hall;
      apply elem_of_nil in Hall. }
  destruct (process_command_waters intent plant_names v bed_index g Hw Hne)
    as [reply_text ->]. cbn [snd]. unfold watered.
  rewrite (proj2 (is_empty_false _) Hne), Hr, Hv, cell_paint.
  destruct (selects _ r i j) eqn:Hs.
  - apply selects_spec in Hs as [Ht _]. by split.
  - split; [|done]. intros Ht.
    assert (selects (resolve_codes plant_names) r i j = true) as Hs';
      [|congruence].
    apply selects_spec. split; [done|]. left.
    by apply mem_elem, mem_all_resolved.
Qed.

Lemma all_overrides_names_witness :
  let after :=
    (process_command TurnOnWater ["basil"; "all"] 2 (Some 1)
       water_status_init).2 in
  "all" ∈ ["basil"; "all"]
  ∧ cell after 1%fin 3%fin = 2
  ∧ cell after 0%fin 0%fin = 0.
Proof.
  intros after.
  assert ("all" ∈ ["basil"; "all"]) as Hall by in_list.
  assert (- 2 ^ 63 ≤ written_level TurnOnWater 2 < 2 ^ 63) as Hv
    by (simpl; lia).
  pose proof (all_overrides_names TurnOnWater ["basil"; "all"] 2 (Some 1)
                water_status_init (Some 1%fin) Hall (or_introl eq_refl)
                eq_refl Hv) as H.
  split; [exact Hall|]. split.
  - apply (proj1 (H 1%fin 3%fin)). reflexivity.
  - apply (proj2 (H 0%fin 0%fin)). discriminate.
Defined.

Lemma cell_code_nonempty i j : cell plant_matrix i j ≠ "".
Proof.
  unfold ROWS, COLS in *.
  inv_fin i; [|intros i; inv_fin i; [|intros i; inv_fin i;
    [|intros i; inv_fin i; [|intros i; inv_fin i; [|intros i; inv_fin i]]]]];
  (inv_fin j; [|intros j; inv_fin j; [|intros j; inv_fin j;
    [|intros j; inv_fin j; [|intros j; inv_fin j; [|intros j; inv_fin j]]]]]);
  done.
Qed.

(** X2.  Without "all" among the plant names, a watering command whose
    level fits a cell writes it to the cells of the addressed rows in which
    a named plant stands, and leaves every other cell as it was. *)
Theorem named_plants_frame intent plant_names v bed_index g r :
  "all" ∉ plant_names → waters intent → target bed_index = Some r →
  - 2 ^ 63 ≤ written_level intent v < 2 ^ 63 →
  let after := (process_command intent plant_names v bed_index g).2 in
  ∀ i j,
    (in_target r i → names_plant_at plant_names i j →
     cell after i j = written_level intent v)
    ∧ (¬ (in_target r i ∧ names_plant_at plant_names i j) →
       cell after i j = cell g i j).
Proof.
  intros Hall Hw Hr Hv%int64_bounds after i j. subst after.
  rewrite process_command_grid.
  assert (watered plant_names (written_level intent v) bed_index g
          = match intent with
            | TurnOnWater | TurnOffWater =>
                watered plant_names (written_level intent v) bed_index g
            | _ => g
            end) as <- by by destruct Hw as [-> | ->].
  unfold watered.
  assert (selects (resolve_codes plant_names) r i j = true
          ↔ in_target r i ∧ names_plant_at plant_names i j) as Hsel.
  { rewrite selects_spec. unfold names_plant_at. split.
    - intros [Ht [Ha|Hc]];
        [apply mem_elem, mem_all_resolved in Ha; by destruct Hall|].
      split; [done|]. apply resolve_codes_elem in Hc as (n & ? & ? & _). eauto.
    - intros [Ht (n & Hn & Hc)]. split; [done|]. right.
      apply resolve_codes_elem. exists n. repeat split; try done.
      apply cell_code_nonempty. }
  destruct (is_empty (resolve_codes plant_names)) eqn:He.
  - split; [|done]. intros Ht Hp.
    pose proof (proj2 Hsel (conj Ht Hp)) as Hs.
    destruct (resolve_codes plant_names); [|done].
    apply selects_spec in Hs as [_ [H|H]]; by apply elem_of_nil in H.
  - rewrite Hr, Hv, cell_paint. destruct (selects _ r i j) eqn:Hs.
    + split; [done|]. intros Hn. destruct Hn. by apply Hsel.
    + split; [|done]. intros Ht Hp. discriminate (proj2 Hsel (conj Ht Hp)).
Qed.

Lemma named_plants_frame_witness :
  let after :=
    (process_command TurnOnWater ["basil"] 1 None water_status_init).2 in
  ("all" ∉ ["basil"])
  ∧ cell after 0%fin 1%fin = 1
  ∧ cell after 0%fin 0%fin = 0.
Proof.
  intros after.
  assert ("all" ∉ ["basil"]) as Hall.
  { intros H. apply elem_of_cons in H as [H|H]; [discriminate|].
    by apply elem_of_nil in H. }
  assert (- 2 ^ 63 ≤ written_level TurnOnWater 1 < 2 ^ 63) as Hv
    by (simpl; lia).
  pose proof (named_plants_frame TurnOnWater ["basil"] 1 None
                water_status_init None Hall (or_introl eq_refl) eq_refl Hv)
    as H.
  split; [exact Hall|]. split.
  - apply (proj1 (H 0%fin 1%fin)); [exact I|].
    exists "basil". split; [in_list | reflexivity].
  - apply (proj2 (H 0%fin 0%fin)). intros [_ (name & Hn & Hc)].
    apply elem_of_cons in Hn as [->|Hn]; [discriminate|].
    by apply elem_of_nil in Hn.
Defined.

Lemma watered_paint plant_names v bed_index g :
  watered plant_names v bed_index g
  = if int64 v then paint (written_cells plant_names bed_index) v g else g.
Proof.
  unfold watered, written_cells.
  destruct (is_empty (resolve_codes plant_names)); simpl.
  - rewrite paint_none. by destruct (int64 v).
  - destruct (target bed_index); [done|]. rewrite paint_none.
    by destruct (int64 v).
Qed.

Lemma paint_over P v w g : paint P w (paint P v g) = paint P w g.
Proof.
  apply matrix_eq. intros i j. rewrite !cell_paint. by destruct (P i j).
Qed.

Lemma mem_app x l1 l2 : mem x (l1 ++ l2) = mem x l1 || mem x l2.
Proof. unfold mem. apply existsb_app. Qed.

Lemma resolve_codes_app names1 names2 :
  resolve_codes (names1 ++ names2)
  = (resolve_codes names1 ++ resolve_codes names2)%list.
Proof. unfold resolve_codes. apply omap_app. Qed.

Lemma selects_nil r i j : selects [] r i j = false.
Proof. unfold selects. simpl. apply andb_false_r. Qed.

Lemma selects_app codes1 codes2 r i j :
  selects (codes1 ++ codes2) r i j
  = selects codes1 r i j || selects codes2 r i j.
Proof.
  unfold selects. rewrite !mem_app.
  by destruct (match r with Some _ => _ | None => _ end),
     (mem "all" codes1), (mem "all" codes2),
     (mem (cell plant_matrix i j) codes1), (mem (cell plant_matrix i j) codes2).
Qed.

Lemma written_cells_selects plant_names bed_index i j :
  written_cells plant_names bed_index i j
  = match target bed_index with
    | Some r => selects (resolve_codes plant_names) r i j
    | None => false
    end.
Proof.
  unfold written_cells. destruct (resolve_codes plant_names); [|done].
  simpl. destruct (target bed_index); [|done]. by rewrite selects_nil.
Qed.

Lemma written_cells_app names1 names2 bed_index i j :
  written_cells (names1 ++ names2) bed_index i j
  = written_cells names1 bed_index i j || written_cells names2 bed_index i j.
Proof.
  rewrite !written_cells_selects, resolve_codes_app.
  destruct (target bed_index); [apply selects_app | done].
Qed.

(** The grid that a command leaves: a watering command whose level fits a
    cell paints the cells it writes, and every other command writes
    nothing. *)
Lemma command_grid intent plant_names v bed_index g :
  (process_command intent plant_names v bed_index g).2
  = if decide (waters intent)
    then if int64 (written_level intent v)
         then paint (written_cells plant_names bed_index)
                    (written_level intent v) g
         else g
    else g.
Proof.
  rewrite process_command_grid. unfold waters.
  destruct intent; case_decide as H; try done;
    try (by rewrite watered_paint); try (by destruct H); destruct H; auto.
Qed.

(** X3.  A command for two lists of plant names leaves the grid that the command
    for the first list followed by the command for the second leaves, and
    the order of the two does not matter. *)
Theorem commands_compose (intent : Intent) (names1 names2 : list string)
    (v : Z) (bed_index : option Z) (g : grid) :
  let run names g := (process_command intent names v bed_index g).2 in
  run (names1 ++ names2)%list g = run names2 (run names1 g)
  ∧ run names2 (run names1 g) = run names1 (run names2 g).
Proof.
  cbv zeta beta. rewrite !command_grid. case_decide; [|done].
  destruct (int64 (written_level intent v)); [|done].
  rewrite !paint_paint. split; apply paint_ext; intros i j.
  - apply written_cells_app.
  - apply orb_comm.
Qed.

(** X4.  Turning off the plants that were just turned on, in the same bed,
    leaves the grid that turning them off at once leaves. *)
Theorem turn_off_absorbs_turn_on plant_names v v' bed_index g :
  (process_command TurnOffWater plant_names v' bed_index
     (process_command TurnOnWater plant_names v bed_index g).2).2
  = (process_command TurnOffWater plant_names v' bed_index g).2.
Proof.
  rewrite !command_grid.
  rewrite (decide_True (P := waters TurnOffWater)) by by right.
  rewrite (decide_True (P := waters TurnOnWater)) by by left.
  cbn [written_level]. change (int64 0) with true. cbv iota.
  destruct (int64 v); [apply paint_over | done].
Qed.

Lemma row_of_negative b : -5 ≤ b < 0 → row_of b = row_of (b + 5).
Proof.
  intros Hb. unfold row_of. change (- Z.of_nat ROWS) with (-5).
  change (Z.of_nat ROWS) with 5.
  destruct (Z.leb_spec 0 b); [lia|].
  destruct (Z.leb_spec (-5) b); [|lia].
  destruct (Z.ltb_spec b 0); [|lia].
  destruct (Z.leb_spec 0 (b + 5)); [|lia].
  destruct (Z.ltb_spec (b + 5) 5); [|lia]. reflexivity.
Qed.

Lemma row_of_none b : row_of b = None ↔ ¬ (-5 ≤ b < 5).
Proof.
  split.
  - intros Hn Hb. destruct (Z.leb_spec 0 b).
    + destruct (row_of_in_rows b) as [r Hr]; [|congruence].
      unfold in_rows. change (Z.of_nat ROWS) with 5.
      apply andb_true_iff. split; [apply Z.leb_le | apply Z.ltb_lt]; lia.
    + rewrite row_of_negative in Hn by lia.
      destruct (row_of_in_rows (b + 5)) as [r Hr]; [|congruence].
      unfold in_rows. change (Z.of_nat ROWS) with 5.
      apply andb_true_iff. split; [apply Z.leb_le | apply Z.ltb_lt]; lia.
  - intros Hb. unfold row_of. change (- Z.of_nat ROWS) with (-5).
  change (Z.of_nat ROWS) with 5.
    destruct (Z.leb_spec 0 b), (Z.ltb_spec b 5), (Z.leb_spec (-5) b),
      (Z.ltb_spec b 0); simpl; try done; lia.
Qed.

Lemma outcome_some {A : Type} (x : A) v bed_index :
  is_Some (target bed_index) →
  outcome x v bed_index = if int64 v then Ok x else Raise OverflowError.
Proof.
  intros [r Hr]. unfold outcome. destruct bed_index as [b|]; [|done].
  simpl in Hr. by destruct (row_of b).
Qed.

Lemma process_command_target intent plant_names v bed1 bed2 g :
  target bed1 = target bed2 → is_Some (target bed1) →
  process_command intent plant_names v bed1 g
  = process_command intent plant_names v bed2 g.
Proof.
  intros Ht Hs. assert (is_Some (target bed2)) as Hs' by by rewrite <- Ht.
  destruct (decide (resolve_codes plant_names = [])) as [He|Hne].
  - by rewrite !process_command_no_plant.
  - destruct intent.
    + rewrite !process_command_on, !outcome_some by done. unfold watered.
      by rewrite Ht.
    + rewrite !process_command_off, !outcome_some by done. unfold watered.
      by rewrite Ht.
    + by rewrite !process_command_status.
    + by rewrite !process_command_unknown.
Qed.

(** X5.  A bed index outside [-5, 5) makes a watering command with a resolved
    plant raise before any cell is written, and what it raises is IndexError
    when the index and the level fit 64 bits; the other commands do not look
    at the bed index.  An index from -5 to -1 counts from the last row, as
    numpy indexes. *)
Theorem bed_index_bounds intent plant_names v b g :
  (¬ (-5 ≤ b < 5) → waters intent → resolve_codes plant_names ≠ [] →
   ∃ e, process_command intent plant_names v (Some b) g = (Raise e, g)
        ∧ (- 2 ^ 63 ≤ b < 2 ^ 63 →
           - 2 ^ 63 ≤ written_level intent v < 2 ^ 63 →
           e = IndexError))
  ∧ (¬ (-5 ≤ b < 5) → ¬ waters intent →
     process_command intent plant_names v (Some b) g
     = process_command intent plant_names v None g)
  ∧ (-5 ≤ b < 0 →
     process_command intent plant_names v (Some b) g
     = process_command intent plant_names v (Some (b + 5)) g).
Proof.
  split; [|split].
  - intros Hb Hw Hne. apply row_of_none in Hb.
    destruct (process_command_waters intent plant_names v (Some b) g Hw Hne)
      as [reply_text ->].
    unfold outcome, watered. simpl. rewrite Hb. simpl.
    exists (index_error b). split; [by destruct (is_empty _)|].
    intros Hfits%int64_bounds _. unfold index_error. by rewrite Hfits.
  - intros _ Hw. destruct (decide (resolve_codes plant_names = [])) as [He|Hne].
    + by rewrite !process_command_no_plant.
    + destruct intent; try (destruct Hw; by (left + right)).
      * by rewrite !process_command_status.
      * by rewrite !process_command_unknown.
  - intros Hb. apply process_command_target.
    + simpl. by rewrite row_of_negative.
    + simpl. destruct (row_of b) eqn:Hr; [by eexists|].
      apply row_of_none in Hr. lia.
Qed.

Lemma bed_index_bounds_witness :
  process_command TurnOnWater ["basil"] 1 (Some 7) water_status_init
  = (Raise IndexError, water_status_init)
  ∧ process_command GetStatus ["basil"] 1 (Some 7) water_status_init
    = process_command GetStatus ["basil"] 1 None water_status_init
  ∧ process_command TurnOnWater ["basil"] 1 (Some (-1)) water_status_init
    = process_command TurnOnWater ["basil"] 1 (Some (-1 + 5)) water_status_init.
Proof.
  destruct (bed_index_bounds TurnOnWater ["basil"] 1 7 water_status_init)
    as (Hout & _).
  destruct (bed_index_bounds GetStatus ["basil"] 1 7 water_status_init)
    as (_ & Hread & _).
  destruct (bed_index_bounds TurnOnWater ["basil"] 1 (-1) water_status_init)
    as (_ & _ & Hneg).
  split; [|split].
  - destruct Hout as (e & -> & He); [lia | by left | discriminate|].
    rewrite He; [done | lia | simpl; lia].
  - apply Hread; [lia|]. intros [H|H]; discriminate H.
  - apply Hneg. lia.
Defined.

Lemma resolve_codes_unknown plant_names :
  Forall (λ name, name ∉ dict_keys plant_map) plant_names →
  resolve_codes plant_names = [].
Proof.
  intros Hf. unfold resolve_codes. induction Hf as [|n ns Hn _ IH]; [done|].
  simpl. by rewrite (dict_get_missing plant_map n Hn).
Qed.

(** X6.  When none of the plant names is a key of [plant_map], the command,
    whatever its intent and bed index, answers that the plants are not
    recognized and leaves the grid as it is. *)
Theorem unknown_plants_not_recognized intent plant_names v bed_index g :
  Forall (λ name, name ∉ dict_keys plant_map) plant_names →
  process_command intent plant_names v bed_index g = (Ok not_recognized, g).
Proof.
  intros Hf. apply process_command_no_plant. by apply resolve_codes_unknown.
Qed.

Lemma unknown_plants_not_recognized_witness :
  Forall (λ name, name ∉ dict_keys plant_map) ["rose"; "Basil"]
  ∧ process_command TurnOnWater ["rose"; "Basil"] 2 (Some 9) water_status_init
    = (Ok not_recognized, water_status_init).
Proof.
  assert (Forall (λ name, name ∉ dict_keys plant_map) ["rose"; "Basil"])
    as Hf.
  { repeat apply Forall_cons_2; [| |apply Forall_nil_2];
      intros H; vm_compute in H;
      repeat (apply elem_of_cons in H as [H|H]; [discriminate|]);
      by apply elem_of_nil in H. }
  split; [exact Hf|].
  apply (unknown_plants_not_recognized TurnOnWater ["rose"; "Basil"] 2
           (Some 9) water_status_init Hf).
Defined.

(** X7.  A watering command for one of the five plants in one bed, with a
    level that fits a cell, writes one cell: every row holds the plant in
    one column, and the grid that the command leaves is the old one with
    that entry replaced. *)
Theorem plant_in_bed_writes_one_cell name b :
  name ∈ plant_names_proper → 0 ≤ b < 5 →
  ∃ (r : fin ROWS) (j : fin COLS),
    Z.of_nat (fin_to_nat r) = b
    ∧ dict_get plant_map name = Some (cell plant_matrix r j)
    ∧ ∀ intent v (g : grid),
        waters intent → - 2 ^ 63 ≤ written_level intent v < 2 ^ 63 →
        (process_command intent [name] v (Some b) g).2
        = vinsert r (vinsert j (written_level intent v) (g !!! r)) g.
Proof.
  intros Hn Hb.
  assert (b = 0 ∨ b = 1 ∨ b = 2 ∨ b = 3 ∨ b = 4) as Hcases by lia.
  unfold plant_names_proper in Hn.
  assert (∀ (r : fin ROWS) (j : fin COLS),
            Z.of_nat (fin_to_nat r) = b →
            dict_get plant_map name = Some (cell plant_matrix r j) →
            (∀ (v : Z) (g : grid),
               paint (written_cells [name] (Some b)) v g
               = vinsert r (vinsert j v (g !!! r)) g) →
            ∃ (r : fin ROWS) (j : fin COLS),
              Z.of_nat (fin_to_nat r) = b
              ∧ dict_get plant_map name = Some (cell plant_matrix r j)
              ∧ ∀ intent v (g : grid),
                  waters intent → - 2 ^ 63 ≤ written_level intent v < 2 ^ 63 →
                  (process_command intent [name] v (Some b) g).2
                  = vinsert r (vinsert j (written_level intent v) (g !!! r)) g)
    as Hgive.
  { intros r j Hr Hc Hp. exists r, j. split; [done|]. split; [done|].
    intros intent v g Hw Hv%int64_bounds.
    rewrite command_grid, decide_True, Hv by done. apply Hp. }
  each_member Hn ltac:(
    destruct Hcases as [->|[->|[->|[->| ->]]]];
    let cell_at r j :=
      (apply (Hgive r j);
       [reflexivity | reflexivity | intros v g; grid_vars g; reflexivity]) in
    let row_at r :=
      first [ cell_at r (0%fin : fin COLS) | cell_at r (1%fin : fin COLS)
            | cell_at r (2%fin : fin COLS) | cell_at r (3%fin : fin COLS)
            | cell_at r (4%fin : fin COLS) ] in
    first [ row_at (0%fin : fin ROWS) | row_at (1%fin : fin ROWS)
          | row_at (2%fin : fin ROWS) | row_at (3%fin : fin ROWS)
          | row_at (4%fin : fin ROWS) ]).
Qed.

Lemma plant_in_bed_writes_one_cell_witness :
  "carrot" ∈ plant_names_proper
  ∧ ∃ (r : fin ROWS) (j : fin COLS),
      Z.of_nat (fin_to_nat r) = 3
      ∧ dict_get plant_map "carrot" = Some (cell plant_matrix r j)
      ∧ ∀ intent v (g : grid),
          waters intent → - 2 ^ 63 ≤ written_level intent v < 2 ^ 63 →
          (process_command intent ["carrot"] v (Some 3) g).2
          = vinsert r (vinsert j (written_level intent v) (g !!! r)) g.
Proof.
  assert ("carrot" ∈ plant_names_proper) as Hn
    by (unfold plant_names_proper; in_list).
  split; [exact Hn|].
  apply (plant_in_bed_writes_one_cell "carrot" 3 Hn). lia.
Defined.

Lemma count_replicate (v w : Z) (n : nat) :
  length (filter (λ x, x = w) (replicate n v)) = if decide (v = w) then n else 0%nat.
Proof.
  destruct (decide (v = w)) as [Heq|Hne];
    (induction n as [|n IH]; [done|]);
    change (replicate (S n) v) with (v :: replicate n v);
    [rewrite filter_cons_True by done | rewrite filter_cons_False by done];
    simpl; by rewrite IH.
Qed.

Lemma count_eq_fill v w (g : grid) :
  count_eq w (paint (λ _ _, true) v g) = if decide (v = w) then 25%nat else 0%nat.
Proof.
  rewrite <- fill_paint. unfold count_eq, fill.
  change (cells (vreplicate ROWS (vreplicate COLS v))) with (replicate 25 v).
  apply count_replicate.
Qed.

Lemma written_cells_all plant_names i j :
  "all" ∈ plant_names → written_cells plant_names None i j = true.
Proof.
  intros Hall. rewrite written_cells_selects. simpl. apply selects_spec.
  split; [done|]. left. by apply mem_elem, mem_all_resolved.
Qed.

(** X8.  The status that is reported after everything was turned on, with a
    level that fits a cell, or off. *)
Theorem status_after_all (intent : Intent) (plant_names names' : list string)
    (v v' : Z) (bed' : option Z) (g : grid) :
  "all" ∈ plant_names → waters intent → resolve_codes names' ≠ [] →
  - 2 ^ 63 ≤ written_level intent v < 2 ^ 63 →
  let after := (process_command intent plant_names v None g).2 in
  let level := written_level intent v in
  after = vreplicate ROWS (vreplicate COLS level)
  ∧ process_command GetStatus names' v' bed' after
    = (Ok ("Current watering status: "
           ++ (if decide (level = 1) then "25" else "0") ++ " drip, "
           ++ (if decide (level = 2) then "25" else "0")
           ++ " shower out of 25 plants."), after).
Proof.
  intros Hall Hw Hne Hv%int64_bounds after level.
  assert (after = paint (λ _ _, true) level g) as Hafter.
  { unfold after. rewrite command_grid, decide_True, Hv by done.
    apply paint_ext. intros i j. by apply written_cells_all. }
  split; [by rewrite Hafter, <- fill_paint|].
  rewrite process_command_status by done. unfold status_reply.
  rewrite Hafter, !count_eq_fill. by repeat case_decide.
Qed.

Lemma status_after_all_witness :
  let after :=
    (process_command TurnOnWater ["all"] 2 None water_status_init).2 in
  after = vreplicate ROWS (vreplicate COLS 2)
  ∧ process_command GetStatus ["basil"] 0 (Some 9) after
    = (Ok "Current watering status: 0 drip, 25 shower out of 25 plants.",
       after).
Proof.
  apply (status_after_all TurnOnWater ["all"] ["basil"] 2 0 (Some 9)
           water_status_init); [in_list | by left | discriminate | simpl; lia].
Defined.

(** X19.  Only TurnOnWater looks at the intensity: any other command does
    the same whatever the intensity is.  A TurnOnWater command with a
    resolved plant, with no bed or a bed index that addresses a row, and
    with an intensity outside the 64-bit range raises OverflowError and
    writes nothing. *)
Theorem intensity_out_of_range intent plant_names v bed_index g :
  (intent ≠ TurnOnWater →
   ∀ v', process_command intent plant_names v bed_index g
         = process_command intent plant_names v' bed_index g)
  ∧ (intent = TurnOnWater →
     resolve_codes plant_names ≠ [] → is_Some (target bed_index) →
     ¬ (- 2 ^ 63 ≤ v < 2 ^ 63) →
     process_command intent plant_names v bed_index g
     = (Raise OverflowError, g)).
Proof.
  split.
  - intros Hi v'. by destruct intent.
  - intros -> Hne Ht Hv. rewrite process_command_on by done.
    assert (int64 v = false) as Hv'.
    { destruct (int64 v) eqn:H; [|done]. by apply int64_bounds in H. }
    rewrite outcome_some by done. unfold watered.
    rewrite Hv', (proj2 (is_empty_false _) Hne). by destruct (target bed_index).
Qed.

Lemma intensity_out_of_range_witness :
  process_command TurnOffWater ["basil"] (2 ^ 63) None water_status_init
  = process_command TurnOffWater ["basil"] 0 None water_status_init
  ∧ process_command TurnOnWater ["all"] (2 ^ 63) None water_status_init
    = (Raise OverflowError, water_status_init)
  ∧ process_command TurnOnWater ["beans"; "basil"] (- 2 ^ 63 - 1) (Some (-2))
      water_status_init
    = (Raise OverflowError, water_status_init).
Proof.
  split; [|split].
  - apply (intensity_out_of_range TurnOffWater ["basil"] (2 ^ 63) None
             water_status_init). discriminate.
  - apply (intensity_out_of_range TurnOnWater ["all"] (2 ^ 63) None
             water_status_init); [done | discriminate | by eexists | lia].
  - apply (intensity_out_of_range TurnOnWater ["beans"; "basil"]
             (- 2 ^ 63 - 1) (Some (-2)) water_status_init);
      [done | discriminate | by eexists | lia].
Defined.

Lemma parse_intensity_on text :
  parse_intensity text = 1 ∨ parse_intensity text = 2.
Proof.
  unfold parse_intensity.
  destruct (any_in shower_keywords (Str.lower text)),
    (any_in drip_keywords (Str.lower text)); auto.
Qed.

(** X9.  Whatever the request, a cell keeps its level or takes one of the three
    levels, and it is only raised above OFF by a text classified as
    TurnOnWater. *)
Theorem ask_writes_levels (g : grid) (i : fin ROWS) (j : fin COLS) :
  (∀ request,
     let after := cell (ask request g).2 i j in
     after = cell g i j ∨ after = 0 ∨ after = 1 ∨ after = 2)
  ∧ (∀ text,
       classify_intent text ≠ TurnOnWater →
       let after := cell (ask (post text) g).2 i j in
       after = cell g i j ∨ after = 0).
Proof.
  assert (∀ text, let after := cell (handle text g).2 i j in
            after = cell g i j
            ∨ (classify_intent text ≠ TurnOnWater ∧ after = 0)
            ∨ (classify_intent text = TurnOnWater ∧ (after = 1 ∨ after = 2)))
    as Hhandle.
  { intros text after. subst after.
    destruct (handle_cases text g) as (names & _ & _ & ->).
    destruct (parse_location text) as [bed_index|e]; [|by left].
    rewrite command_grid. case_decide as Hw; [|by left].
    destruct (int64 _); [|by left].
    rewrite cell_paint. destruct (written_cells _ _ i j); [|by left].
    destruct (classify_intent text) eqn:Hc; cbn [written_level].
    - right. right. split; [done|].
      destruct (decide (TurnOnWater = TurnOnWater)); [|done].
      apply parse_intensity_on.
    - right. left. by split.
    - destruct Hw as [Hw|Hw]; discriminate Hw.
    - destruct Hw as [Hw|Hw]; discriminate Hw. }
  split.
  - intros request after. subst after. rewrite ask_grid.
    destruct (ask_try_cases request g) as [(text & _ & ->)|[->|(e & _ & ->)]];
      [|by left..].
    destruct (Hhandle text) as [H|[[_ H]|[_ [H|H]]]]; auto.
  - intros text Hc after. subst after. rewrite ask_grid.
    destruct (String.eqb_spec text "") as [->|Hne]; [by left|].
    rewrite ask_try_post by done.
    destruct (Hhandle text) as [H|[[_ H]|[Hc' _]]]; auto. done.
Qed.

Lemma ask_writes_levels_witness :
  classify_intent "turn off basil" ≠ TurnOnWater
  ∧ (let after :=
       cell (ask (post "turn off basil") water_status_init).2 0%fin 0%fin in
     after = cell water_status_init 0%fin 0%fin ∨ after = 0).
Proof.
  assert (classify_intent "turn off basil" ≠ TurnOnWater) as Hc
    by (vm_compute; discriminate).
  split; [exact Hc|].
  apply (proj2 (ask_writes_levels water_status_init 0%fin 0%fin)
           "turn off basil" Hc).
Defined.

(** ** Intensity, letter case and tokens *)

Lemma prefix_spec k s : String.prefix k s = true ↔ ∃ post, s = k ++ post.
Proof.
  revert s. induction k as [|c k IH]; intros s.
  - destruct s; simpl; (split; [by eexists | done]).
  - destruct s as [|d s]; simpl.
    + split; [done|]. intros [post H]. by rewrite append_cons in H.
    + destruct (ascii_dec c d) as [<-|Hne].
      * rewrite IH. split; intros [post H]; exists post.
        -- by rewrite append_cons, H.
        -- rewrite append_cons in H. by inversion H.
      * split; [done|]. intros [post H]. rewrite append_cons in H.
        by inversion H.
Qed.

Lemma contains_nil k : Str.contains k "" = String.prefix k "".
Proof. unfold Str.contains. apply orb_false_r. Qed.

Lemma contains_cons k d s :
  Str.contains k (String d s)
  = String.prefix k (String d s) || Str.contains k s.
Proof. reflexivity. Qed.

Lemma contains_spec k s : Str.contains k s = true ↔ substring k s.
Proof.
  unfold substring. induction s as [|d s IH].
  - rewrite contains_nil, prefix_spec. split.
    + intros [post H]. by exists "", post.
    + intros (pre & post & H). destruct pre; [by exists post|].
      by rewrite append_cons in H.
  - rewrite contains_cons, orb_true_iff, prefix_spec, IH. split.
    + intros [[post H]|(pre & post & H)].
      * by exists "", post.
      * exists (String d pre), post. by rewrite append_cons, H.
    + intros (pre & post & H). destruct pre as [|c pre].
      * left. by exists post.
      * right. rewrite append_cons in H. inversion H. by exists pre, post.
Qed.

Lemma any_in_spec keywords s :
  any_in keywords s = true ↔ ∃ k, k ∈ keywords ∧ substring k s.
Proof.
  unfold any_in. rewrite existsb_exists. split.
  - intros (k & Hk & Hc). exists k. split; [by apply list_elem_of_In|].
    by apply contains_spec.
  - intros (k & Hk & Hc). exists k. split; [by apply list_elem_of_In|].
    by apply contains_spec.
Qed.

(** X10.  [parse_intensity] answers SHOWER exactly when a shower keyword occurs
    somewhere in the lower-cased text, also inside a longer word and also
    next to a drip keyword; in every other case it answers DRIP. *)
Theorem parse_intensity_rules (text : string) :
  (parse_intensity text = 2
   ↔ ∃ k, k ∈ shower_keywords ∧ substring k (Str.lower text))
  ∧ (parse_intensity text = 1
     ↔ ¬ ∃ k, k ∈ shower_keywords ∧ substring k (Str.lower text)).
Proof.
  unfold parse_intensity. rewrite <- any_in_spec.
  destruct (any_in shower_keywords (Str.lower text)).
  - split; split; done.
  - destruct (any_in drip_keywords (Str.lower text)); split; split; done.
Qed.

Lemma parse_intensity_rules_witness :
  parse_intensity "Give the basil a SHOWERING, slow" = 2
  ∧ parse_intensity "turn on basil" = 1.
Proof.
  split.
  - apply (proj1 (parse_intensity_rules "Give the basil a SHOWERING, slow")).
    exists "shower". split; [unfold shower_keywords; in_list|].
    by exists "give the basil a ", "ing, slow".
  - reflexivity.
Defined.

Lemma lower_char_idem c :
  Chars.lower_char (Chars.lower_char c) = Chars.lower_char c.
Proof. by destruct c as [[] [] [] [] [] [] [] []]. Qed.

Lemma lower_idem s : Str.lower (Str.lower s) = Str.lower s.
Proof.
  unfold Str.lower. induction s as [|c s IH]; [done|].
  simpl. by rewrite lower_char_idem, IH.
Qed.

Lemma lower_empty s : Str.lower s = "" ↔ s = "".
Proof. by destruct s. Qed.

(** X11.  Two texts that differ only in the case of their letters are parsed
    alike and are answered alike by [/ask]. *)
Theorem ask_ignores_case (text1 text2 : string) :
  Str.lower text1 = Str.lower text2 →
  classify_intent text1 = classify_intent text2
  ∧ extract_plants text1 = extract_plants text2
  ∧ parse_location text1 = parse_location text2
  ∧ parse_intensity text1 = parse_intensity text2
  ∧ ∀ g, ask (post text1) g = ask (post text2) g.
Proof.
  intros Hl.
  assert (classify_intent text1 = classify_intent text2) as Hc
    by (unfold classify_intent; by rewrite Hl).
  assert (extract_plants text1 = extract_plants text2) as He
    by (unfold extract_plants, extract_plants_run; by rewrite Hl).
  assert (parse_location text1 = parse_location text2) as Hp
    by (unfold parse_location, parse_location_run; by rewrite Hl).
  assert (parse_intensity text1 = parse_intensity text2) as Hi
    by (unfold parse_intensity; by rewrite Hl).
  do 4 (split; [done|]). intros g.
  destruct (String.eqb_spec text1 "") as [->|Hne1].
  { symmetry in Hl. change (Str.lower "") with "" in Hl.
    apply (proj1 (lower_empty text2)) in Hl. by subst. }
  assert (text2 ≠ "") as Hne2.
  { intros ->. change (Str.lower "") with "" in Hl.
    by apply (proj1 (lower_empty text1)) in Hl. }
  unfold ask. rewrite !ask_try_post by done. unfold handle.
  by rewrite Hc, He, Hp, Hi.
Qed.

Lemma ask_ignores_case_witness :
  Str.lower "Turn ON Basil in BED 2" = Str.lower "turn on basil in bed 2"
  ∧ ask (post "Turn ON Basil in BED 2") water_status_init
    = ask (post "turn on basil in bed 2") water_status_init.
Proof.
  assert (Str.lower "Turn ON Basil in BED 2"
          = Str.lower "turn on basil in bed 2") as Hl by reflexivity.
  split; [exact Hl|].
  destruct (ask_ignores_case _ _ Hl) as (_ & _ & _ & _ & Hask). apply Hask.
Defined.

Lemma findall_from_elem fuel r cur w :
  w ∈ findall_from fuel r cur →
  ∃ pre c1 c2, reads cur pre c1 ∧ matches r c1 c2 ∧ reads c1 w c2.
Proof.
  revert cur. induction fuel as [|fuel IH]; intros cur; simpl;
    [by intros ?%elem_of_nil|].
  destruct (search_from r (before cur) (rest cur)) as [m|] eqn:Hs;
    [|by intros ?%elem_of_nil].
  destruct (_ <? _)%nat; [|by intros ?%elem_of_nil].
  apply search_from_some in Hs as (pre & w' & c1 & Hpre & Hm & Hw & Hg).
  assert (reads cur pre c1) as Hpre' by by destruct cur.
  intros [->|Hin]%elem_of_cons.
  - exists pre, c1, (m_end m). by rewrite Hg.
  - apply IH in Hin as (pre' & c1' & c2' & Hp' & Hm' & Hw').
    exists (pre ++ w' ++ pre'), c1', c2'. split; [|done].
    eauto using reads_app.
Qed.

Lemma all_chars_app f a b :
  all_chars f (a ++ b) = all_chars f a && all_chars f b.
Proof.
  induction a as [|c a IH]; [done|].
  rewrite append_cons. simpl. by rewrite IH, andb_assoc.
Qed.

Lemma lower_no_upper s :
  all_chars (λ c, negb (Chars.is_upper c)) (Str.lower s) = true.
Proof.
  induction s as [|c s IH]; [done|].
  change (Str.lower (String c s))
    with (String (Chars.lower_char c) (Str.lower s)).
  cbn [all_chars]. rewrite IH, andb_true_r.
  by destruct c as [[] [] [] [] [] [] [] []].
Qed.

Lemma all_chars_lower_letters w :
  all_chars Chars.is_letter w = true →
  all_chars (λ c, negb (Chars.is_upper c)) w = true →
  all_chars Chars.is_lower w = true.
Proof.
  induction w as [|c w IH]; [done|]. simpl.
  rewrite !andb_true_iff. intros [Hl Hw] [Hu Hw']. split; [|by apply IH].
  unfold Chars.is_letter in Hl. apply negb_true_iff in Hu.
  rewrite Hu, orb_false_r in Hl. done.
Qed.

(** X12.  Every token of a text is a non-empty run of lower-case letters that
    occurs in the lower-cased text; so no token is "green beans", the one
    key of the synonym table that holds a space. *)
Theorem tokens_are_letter_runs (text token : string) :
  token ∈ tokenize (Str.lower text) →
  token ≠ ""
  ∧ all_chars Chars.is_lower token = true
  ∧ substring token (Str.lower text)
  ∧ token ≠ "green beans".
Proof.
  unfold tokenize, findall.
  intros (pre & c1 & c2 & Hpre & Hm & Hw)%findall_from_elem.
  apply matches_plus_cls_iff in Hm as (w & Hne & Hl & Hw').
  assert (token = w) as ->.
  { apply consumed_reads in Hw, Hw'. congruence. }
  assert (Str.lower text = pre ++ w ++ rest c2) as Hs.
  { destruct Hpre as [Hpre _], Hw as [Hw _]. simpl in Hpre.
    by rewrite Hpre, Hw. }
  assert (all_chars Chars.is_lower w = true) as Hlow.
  { apply all_chars_lower_letters; [done|].
    pose proof (lower_no_upper text) as Hu. rewrite Hs in Hu.
    rewrite !all_chars_app in Hu.
    by apply andb_true_iff in Hu as [_ [Hu _]%andb_true_iff]. }
  split; [done|]. split; [done|]. split; [by exists pre, (rest c2)|].
  intros ->. by vm_compute in Hlow.
Qed.

Lemma tokens_are_letter_runs_witness :
  "beans" ∈ tokenize (Str.lower "Water the green-BEANS, 2x")
  ∧ all_chars Chars.is_lower "beans" = true
  ∧ substring "beans" (Str.lower "Water the green-BEANS, 2x").
Proof.
  assert ("beans" ∈ tokenize (Str.lower "Water the green-BEANS, 2x")) as Ht
    by (vm_compute; in_list).
  split; [exact Ht|].
  destruct (tokens_are_letter_runs _ _ Ht) as (_ & Hlow & Hsub & _).
  by split.
Defined.

(** ** Texts without a bed or without a trigger word *)

Lemma search_word_substring w r s :
  found (search (Word w · r) s) = true → substring w s.
Proof.
  intros (pre & post & cur' & -> & Hm)%search_found.
  apply matches_cat_iff in Hm as (c2 & [Hr _]%matches_word_iff & _).
  simpl in Hr. exists pre, (rest c2). by rewrite Hr.
Qed.


Lemma not_found_without w s m :
  Str.contains w s = false → (found m = true → substring w s) → m = None.
Proof.
  intros Hc Hf. destruct m; [|done].
  apply contains_spec in Hf; [congruence | done].
Qed.

(** X13.  A text in which "bed" does not occur has no location: both patterns are
    searched and [parse_location] returns [None]. *)
Theorem no_bed_no_location (text : string) :
  Str.contains "bed" (Str.lower text) = false →
  parse_location_run text = ([DigitPattern; WordPattern], Ok None).
Proof.
  intros Hc. unfold parse_location_run.
  rewrite (not_found_without "bed" _ (search re_bed_digits (Str.lower text)))
    by (done || apply search_word_substring).
  by rewrite (not_found_without "bed" _ (search re_bed_word (Str.lower text)))
    by (done || apply search_word_substring).
Qed.

Lemma no_bed_no_location_witness :
  Str.contains "bed" (Str.lower "turn on the basil in row two") = false
  ∧ parse_location_run "turn on the basil in row two"
    = ([DigitPattern; WordPattern], Ok None).
Proof.
  split; [reflexivity|].
  apply (no_bed_no_location "turn on the basil in row two"). reflexivity.
Defined.





(** ** The shape of the list of plants extracted *)

Lemma exact_pass_NoDup tokens plants_found :
  NoDup plants_found → NoDup (exact_pass tokens plants_found).
Proof.
  revert plants_found. induction tokens as [|t ts IH]; intros pf Hnd; [done|].
  simpl. destruct (dict_get PLANT_SYNONYMS t); auto using add_plant_NoDup.
Qed.

Lemma plants_before_fallback_NoDup text found :
  plants_before_fallback text = Ok found → NoDup found.
Proof.
  unfold plants_before_fallback.
  pose proof (exact_pass_NoDup (tokenize (Str.lower text)) [] (NoDup_nil_2))
    as Hex.
  destruct (fuzzy_runs _ _); [|by intros [= <-]].
  by apply fuzzy_pass_NoDup.
Qed.

(** X15.  [extract_plants] returns either ["all"], exactly when neither pass found
    a plant (whether or not an "all" keyword occurs in the text), or the
    plants found: names of the five plants, none twice, so at most five. *)
Theorem extract_plants_shape (text : string) :
  ∃ found names,
    plants_before_fallback text = Ok found
    ∧ extract_plants text = Ok names
    ∧ (found = [] → names = ["all"])
    ∧ (found ≠ [] → names = found ∧ Forall (λ n, n ∈ plant_names_proper) names)
    ∧ NoDup names
    ∧ (length names ≤ 5)%nat.
Proof.
  destruct (extract_plants_cases text) as (found & Hf & Hp & He).
  exists found. eexists. split; [done|]. split; [exact He|].
  pose proof (plants_before_fallback_NoDup text found Hf) as Hnd.
  destruct found as [|n ns]; simpl.
  - split; [done|]. split; [done|]. split; [apply NoDup_singleton|lia].
  - split; [done|]. split; [done|]. split; [done|].
    apply (submseteq_length (n :: ns) plant_names_proper).
    apply NoDup_submseteq; [done|]. by apply Forall_forall.
Qed.

Lemma extract_plants_shape_witness :
  plants_before_fallback "turn on everything" = Ok []
  ∧ extract_plants "turn on everything" = Ok ["all"].
Proof.
  destruct (extract_plants_shape "turn on everything")
    as (found & names & Hf & He & Hnone & _).
  assert (found = []) as Hfound.
  { assert (plants_before_fallback "turn on everything" = Ok []) as Hf'
      by by vm_compute.
    rewrite Hf in Hf'. by injection Hf'. }
  split; [by rewrite Hf, Hfound|]. by rewrite He, (Hnone Hfound).
Defined.

Lemma add_plant_finds token code plants_found :
  dict_get PLANT_SYNONYMS token = Some code →
  ∃ name, dict_get plant_map name = Some code
          ∧ name ∈ add_plant code plants_found.
Proof.
  intros Hc.
  assert (code ∈ ["Ba"; "Be"; "Bt"; "Ca"; "To"]) as Hin.
  { unfold dict_get in Hc.
    destruct (List.find _ PLANT_SYNONYMS) as [[k c]|] eqn:Hf; [|done].
    apply List.find_some in Hf as [Hin _]. simpl in Hc. injection Hc as ->.
    simpl in Hin.
    repeat (destruct Hin as [Hin|Hin]; [inversion Hin; subst; in_list|]).
    done. }
  each_member Hin ltac:(
    let try_name n :=
      (exists n; split; [reflexivity|]; unfold add_plant; simpl;
       destruct (mem n plants_found) eqn:Hm;
       [by apply mem_elem in Hm
       |apply elem_of_app; right; apply list_elem_of_here]) in
    first [ try_name "basil" | try_name "beans" | try_name "beetroot"
          | try_name "carrot" | try_name "tomato" ]).
Qed.

Lemma exact_pass_finds tokens plants_found token code :
  token ∈ tokens → dict_get PLANT_SYNONYMS token = Some code →
  ∃ name, dict_get plant_map name = Some code
          ∧ name ∈ exact_pass tokens plants_found.
Proof.
  intros Ht Hc. revert plants_found.
  induction tokens as [|t ts IH]; intros pf; [by apply elem_of_nil in Ht|].
  apply elem_of_cons in Ht as [<-|Ht]; [|simpl; destruct (dict_get _ t); auto].
  simpl. rewrite Hc.
  destruct (add_plant_finds token code pf Hc) as (name & Hn & Hin).
  exists name. split; [done|]. by apply exact_pass_keeps.
Qed.

(** X16.  As soon as one token is a key of the synonym table, the result is what
    the exact pass found: it holds the plant of that token, the fuzzy pass
    does not run, and an "all" keyword in the text is ignored. *)
Theorem named_plant_beats_all (text token code : string) :
  token ∈ tokenize (Str.lower text) →
  dict_get PLANT_SYNONYMS token = Some code →
  ∃ names name,
    extract_plants text = Ok names
    ∧ names = exact_pass (tokenize (Str.lower text)) []
    ∧ name ∈ names ∧ dict_get plant_map name = Some code
    ∧ "all" ∉ names.
Proof.
  intros Ht Hc.
  destruct (exact_pass_finds _ [] token code Ht Hc) as (name & Hn & Hin).
  destruct (extract_plants_cases text) as (found & Hf & Hp & He).
  unfold plants_before_fallback in Hf.
  assert (fuzzy_runs (exact_pass (tokenize (Str.lower text)) [])
                     (tokenize (Str.lower text)) = false) as Hruns.
  { destruct (fuzzy_runs _ _) eqn:Hr; [|done].
    apply fuzzy_runs_iff in Hr as [Hr _]. rewrite Hr in Hin.
    by apply elem_of_nil in Hin. }
  rewrite Hruns in Hf. injection Hf as <-.
  exists (exact_pass (tokenize (Str.lower text)) []), name.
  split.
  { rewrite He. by destruct (exact_pass _ _); [apply elem_of_nil in Hin|]. }
  split; [done|]. split; [done|]. split; [done|].
  intros Hall. rewrite Forall_forall in Hp. apply Hp in Hall.
  unfold plant_names_proper in Hall.
  repeat (apply elem_of_cons in Hall as [Hall|Hall]; [discriminate|]).
  by apply elem_of_nil in Hall.
Qed.

Lemma named_plant_beats_all_witness :
  "tomatoes" ∈ tokenize (Str.lower "turn on all the Tomatoes")
  ∧ dict_get PLANT_SYNONYMS "tomatoes" = Some "To"
  ∧ ∃ names name,
      extract_plants "turn on all the Tomatoes" = Ok names
      ∧ names = exact_pass (tokenize (Str.lower "turn on all the Tomatoes")) []
      ∧ name ∈ names ∧ dict_get plant_map name = Some "To"
      ∧ "all" ∉ names.
Proof.
  assert ("tomatoes" ∈ tokenize (Str.lower "turn on all the Tomatoes")) as Ht
    by (vm_compute; in_list).
  split; [exact Ht|]. split; [reflexivity|].
  apply (named_plant_beats_all "turn on all the Tomatoes" "tomatoes" "To" Ht).
  reflexivity.
Defined.

(** ** The status route and the replies of [/ask] *)

Lemma get_status_lookup (g : grid) (i : fin ROWS) (j : fin COLS) :
  (get_status g !! fin_to_nat i) ≫= (λ row, row !! fin_to_nat j)
  = Some (cell g i j).
Proof.
  unfold get_status.
  rewrite (proj1 (vlookup_lookup (vmap vec_to_list g) i
                    (vec_to_list (g !!! i)))) by apply vlookup_map.
  simpl. by apply vlookup_lookup.
Qed.

(** X17.  [GET /get_status] returns the grid as it is: five rows of five entries,
    entry [j] of row [i] being cell [(i, j)], so that the grid can be read
    back from the answer; in a reachable grid every entry is 0, 1 or 2. *)
Theorem get_status_is_the_grid (g : grid) :
  length (get_status g) = 5%nat
  ∧ Forall (λ row, length row = 5%nat) (get_status g)
  ∧ (∀ i j, (get_status g !! fin_to_nat i) ≫= (λ row, row !! fin_to_nat j)
            = Some (cell g i j))
  ∧ (∀ g' : grid, get_status g' = get_status g → g' = g)
  ∧ (reachable g → Forall (Forall valid_level) (get_status g)).
Proof.
  split; [apply length_vec_to_list|]. split.
  { unfold get_status. apply Forall_forall. intros row Hrow.
    apply elem_of_vlookup in Hrow as [i Hi]. rewrite vlookup_map in Hi.
    subst row. apply length_vec_to_list. }
  split; [apply get_status_lookup|]. split.
  { intros g' Heq. apply matrix_eq. intros i j.
    pose proof (get_status_lookup g i j) as H.
    rewrite <- Heq, get_status_lookup in H. by injection H. }
  intros Hr. pose proof (reachable_valid g Hr) as Hg.
  unfold get_status. apply Forall_forall. intros row Hrow.
  apply elem_of_vlookup in Hrow as [i Hi]. rewrite vlookup_map in Hi.
  subst row. apply Forall_forall. intros x Hx.
  apply elem_of_vlookup in Hx as [j Hj]. subst x. apply Hg.
Qed.

Lemma get_status_is_the_grid_witness :
  let g := (ask (post "turn on basil") water_status_init).2 in
  reachable g
  ∧ Forall (Forall valid_level) (get_status g)
  ∧ (∀ g' : grid, get_status g' = get_status g → g' = g).
Proof.
  intros g.
  assert (reachable g) as Hr by apply reachable_ask, reachable_init.
  destruct (get_status_is_the_grid g) as (_ & _ & _ & Hinj & Hvalid).
  split; [exact Hr|]. split; [exact (Hvalid Hr) | exact Hinj].
Defined.



